(** * mn/Result.h: the error message [Err] and the tagged union [Result]

    A shallow embedding of [src/mn/include/mn/Result.h].

    - Part 1: outcomes of a call and the state monad the member functions
      run in.
    - Part 2: the collaborators of the header that live in other headers
      ([mn/Str.h], [mn/Assert.h]), modelled from the specification.
    - Part 3: [struct Err] (lines 10-56).
    - Part 4: [struct Result<T, E>] (lines 60-132).
    - Part 5: the instantiation [Result<int, Err>].
    - Part 6: the properties.
    - Part 7: further properties of the header. *)

From Stdlib Require Import ZArith Ascii String.
From stdpp Require Import base option list gmap fin_maps.

Local Open Scope Z_scope.
Local Open Scope nat_scope.

(* ===================================================================== *)
(** * Part 1: outcomes and the state monad *)
(* ===================================================================== *)

(** How a call can end: it returns, a fatal assertion stops the process, or
    the call is outside what the language defines (a buffer read at a type
    that is not live in it, a buffer released twice). *)
Inductive outcome (A : Type) : Type :=
| Ret (a : A)
| AssertFail
| Undefined.
Arguments Ret {A} a.
Arguments AssertFail {A}.
Arguments Undefined {A}.

(** Code that reads and writes a state of type [S]. *)
Definition M (S A : Type) : Type := S → outcome (A * S).

Definition M_ret {S A} (a : A) : M S A := λ s, Ret (a, s).

Definition M_bind {S A B} (m : M S A) (k : A → M S B) : M S B :=
  λ s, match m s with
       | Ret (a, s') => k a s'
       | AssertFail => AssertFail
       | Undefined => Undefined
       end.

(** An outcome that does not touch the state. *)
Definition M_lift {S A} (o : outcome A) : M S A :=
  λ s, match o with
       | Ret a => Ret (a, s)
       | AssertFail => AssertFail
       | Undefined => Undefined
       end.

Declare Scope cpp_scope.
Delimit Scope cpp_scope with cpp.
Notation "x <- m ;; k" := (M_bind m (λ x, k))
  (at level 100, m at next level, right associativity) : cpp_scope.
Notation "m ;; k" := (M_bind m (λ _, k))
  (at level 100, right associativity) : cpp_scope.
Local Open Scope cpp_scope.

(** Bind on plain outcomes, for member functions that only read. *)
Definition outcome_bind {A B} (o : outcome A) (k : A → outcome B) : outcome B :=
  match o with
  | Ret a => k a
  | AssertFail => AssertFail
  | Undefined => Undefined
  end.

(* ===================================================================== *)
(** * Part 2: collaborators from other headers *)
(* ===================================================================== *)

Module Str.

(** Addresses of character buffers. *)
Abbreviation loc := nat.

(** The live character buffers of the program. *)
Abbreviation heap := (gmap nat (list ascii)).

(** Modelled from the spec: the type [Str] of [mn/Str.h], which is not
    part of the sources at hand.  The specification asks for "an owned,
    growable character-sequence type supporting construct-empty, clear,
    append, deep-copy, and release operations"; the header reads its
    field [count] (line 53) and copies it as a plain struct (lines 28 and
    47).  So a [Str] is a handle: the address of its buffer ([None] when
    it has none) and the number of characters it holds. *)
Record t : Type := mk { ptr : option loc; count : nat }.

(** The characters a handle denotes. *)
Definition chars (h : heap) (s : t) : list ascii :=
  match ptr s with
  | Some l => take (count s) (default [] (h !! l))
  | None => []
  end.

(** Modelled from the spec: [str_new()], "construct-empty".  It holds no
    buffer. *)
Definition str_new : t := {| ptr := None; count := 0 |}.

(** Modelled from the spec: [str_clear(self)], "clear".  The handle keeps
    its buffer and holds no character. *)
Definition str_clear (self : t) : t := {| ptr := ptr self; count := 0 |}.

(** Modelled from the spec: [str_push(self, str)], "append".  The
    characters of [str], read when the call starts, are written after the
    characters of [self]; a handle without a buffer gets one. *)
Definition str_push (self str : t) : M heap t :=
  λ h,
    let added := chars h str in
    match ptr self with
    | Some l =>
        Ret ({| ptr := Some l; count := count self + length added |},
             <[l := chars h self ++ added]> h)
    | None =>
        let l := fresh (dom h) in
        Ret ({| ptr := Some l; count := length added |}, <[l := added]> h)
    end.

(** Modelled from the spec: [clone(other)], "deep-copy".  The copy has a
    buffer of its own. *)
Definition clone (other : t) : M heap t :=
  λ h,
    let l := fresh (dom h) in
    Ret ({| ptr := Some l; count := length (chars h other) |},
         <[l := chars h other]> h).

(** Modelled from the spec: [str_free(self)], "release".  Releasing a
    buffer that is not live is undefined.  What the handle holds
    afterwards is left open: the header overwrites it or ends its
    lifetime before any read that matters. *)
Definition str_free (self : t) : M heap unit :=
  λ h,
    match ptr self with
    | None => Ret (tt, h)
    | Some l =>
        if decide (is_Some (h !! l)) then Ret (tt, delete l h) else Undefined
    end.

(** Modelled from the spec: [strf(fmt, args...)] of [mn/Fmt.h], "renders
    a template string with positional arguments into such a character
    sequence".  The rendering itself is a parameter. *)
Definition strf {Fmt Args : Type} (render : Fmt → Args → list ascii)
    (fmt : Fmt) (args : Args) : M heap t :=
  λ h,
    let text := render fmt args in
    let l := fresh (dom h) in
    Ret ({| ptr := Some l; count := length text |}, <[l := text]> h).

(** A handle owns a live buffer that is long enough, or none. *)
Definition valid (h : heap) (s : t) : Prop :=
  match ptr s with
  | Some l => ∃ buf, h !! l = Some buf ∧ count s ≤ length buf
  | None => count s = 0
  end.

End Str.

Arguments Str.chars : simpl never.
Arguments Str.str_clear : simpl never.
Arguments Str.str_push : simpl never.
Arguments Str.clone : simpl never.
Arguments Str.str_free : simpl never.

(** Modelled from the spec: the macro [mn_assert] of [mn/Assert.h], "an
    assertion facility that, given a false condition, deterministically
    aborts execution". *)
Definition mn_assert (cond : bool) : outcome unit :=
  if cond then Ret tt else AssertFail.

(* ===================================================================== *)
(** * Part 3: struct Err (lines 10-56) *)
(* ===================================================================== *)

(** [struct Err { Str msg; ... }] *)
Record Err : Type := mkErr { msg : Str.t }.

(** The message of an error, as the characters its handle denotes. *)
Definition Err_chars (h : Str.heap) (e : Err) : list ascii := Str.chars h (msg e).

(** ** Constructors and destructor

    A constructor builds a new object, which therefore cannot alias its
    argument: it is a function from the argument to the new object, run on
    the heap of character buffers. *)

(** Line 15: [Err(): msg(str_new()) {}] *)
Definition Err_default : Err := {| msg := Str.str_new |}.

(** Lines 18-21: [Err(const char* fmt, TArgs&& ... args) : msg(strf(fmt, args...))] *)
Definition Err_fmt {Fmt Args : Type} (render : Fmt → Args → list ascii)
    (fmt : Fmt) (args : Args) : M Str.heap Err :=
  s <- Str.strf render fmt args ;; M_ret {| msg := s |}.

(** Lines 23-25: [Err(const Err& other) : msg(clone(other.msg))] *)
Definition Err_copy (other : Err) : M Str.heap Err :=
  s <- Str.clone (msg other) ;; M_ret {| msg := s |}.

(** Lines 27-31: [Err(Err&& other) : msg(other.msg) { other.msg = str_new(); }]
    Returns the new object and what [other] holds afterwards. *)
Definition Err_move (other : Err) : Err * Err :=
  let this := {| msg := msg other |} in
  let other' := {| msg := Str.str_new |} in
  (this, other').

(** Line 33: [~Err() { str_free(msg); }] *)
Definition Err_dtor (self : Err) : M Str.heap unit := Str.str_free (msg self).

(** Line 53: [explicit operator bool() const { return msg.count != 0; }] *)
Definition Err_bool (self : Err) : bool := negb (Str.count (msg self) =? 0).

(** Line 54: [bool operator==(bool v) const { return (msg.count != 0) == v; }] *)
Definition Err_eq (self : Err) (v : bool) : bool :=
  Bool.eqb (negb (Str.count (msg self) =? 0)) v.

(** Line 55: [bool operator!=(bool v) const { return !operator==(v); }] *)
Definition Err_ne (self : Err) (v : bool) : bool := negb (Err_eq self v).

(** ** Objects in memory

    The assignment operators take [this] and [other] by reference, and the
    two may be one object.  The [Err] objects of the program are therefore
    kept in a store, by address, next to the heap of character buffers; a
    member function reads and writes [msg] through the address. *)
Record Mem : Type := mkMem { objs : gmap nat Err; bufs : Str.heap }.

Definition Mem_empty : Mem := {| objs := ∅; bufs := ∅ |}.

(** Read the object at [a]; an address that holds no object is undefined. *)
Definition load (a : nat) : M Mem Err :=
  λ m, match objs m !! a with
       | Some e => Ret (e, m)
       | None => Undefined
       end.

(** Write the field [msg] of the object at [a]. *)
Definition set_msg (a : nat) (s : Str.t) : M Mem unit :=
  λ m, Ret (tt, {| objs := <[a := {| msg := s |}]> (objs m); bufs := bufs m |}).

(** Run code of the buffer heap inside the memory. *)
Definition on_bufs {A} (f : M Str.heap A) : M Mem A :=
  λ m, match f (bufs m) with
       | Ret (a, h') => Ret (a, {| objs := objs m; bufs := h' |})
       | AssertFail => AssertFail
       | Undefined => Undefined
       end.

(** Placement of a newly constructed object at the address [this]. *)
Definition construct_at (this : nat) (ctor : M Str.heap Err) : M Mem unit :=
  e <- on_bufs ctor ;; set_msg this (msg e).

(** [Err(fmt, args...)] at [this]. *)
Definition Err_fmt_at {Fmt Args : Type} (render : Fmt → Args → list ascii)
    (this : nat) (fmt : Fmt) (args : Args) : M Mem unit :=
  construct_at this (Err_fmt render fmt args).

(** [Err(const Err& other)] at [this]. *)
Definition Err_copy_at (this other : nat) : M Mem unit :=
  b <- load other ;; construct_at this (Err_copy b).

(** [Err(Err&& other)] at [this]. *)
Definition Err_move_at (this other : nat) : M Mem unit :=
  b <- load other ;;
  let '(t, o) := Err_move b in
  set_msg this (msg t) ;;
  set_msg other (msg o).

(** [~Err()] of the object at [this]; its lifetime ends. *)
Definition Err_dtor_at (this : nat) : M Mem unit :=
  a <- load this ;;
  on_bufs (Err_dtor a) ;;
  λ m, Ret (tt, {| objs := delete this (objs m); bufs := bufs m |}).

(** Lines 35-41:
<<
    Err& operator=(const Err& other)
    {
        str_clear(msg);
        str_push(msg, other.msg);
        return *this;
    }
>>
    [other.msg] is read by the second statement, after the first one has
    cleared [msg]. *)
Definition Err_assign_copy (this other : nat) : M Mem unit :=
  a <- load this ;;
  set_msg this (Str.str_clear (msg a)) ;;
  a <- load this ;;
  b <- load other ;;
  s <- on_bufs (Str.str_push (msg a) (msg b)) ;;
  set_msg this s.

(** Lines 43-50:
<<
    Err& operator=(Err&& other)
    {
        str_free(msg);
        msg = other.msg;
        other.msg = str_new();
        return *this;
    }
>> *)
Definition Err_assign_move (this other : nat) : M Mem unit :=
  a <- load this ;;
  on_bufs (Str.str_free (msg a)) ;;
  b <- load other ;;
  set_msg this (msg b) ;;
  set_msg other Str.str_new.

(** The message of the object at [a]. *)
Definition message (m : Mem) (a : nat) : option (list ascii) :=
  Err_chars (bufs m) <$> objs m !! a.

(** The boolean coercion of the object at [a]. *)
Definition truthy (m : Mem) (a : nat) : option bool :=
  Err_bool <$> objs m !! a.

(** The ownership discipline of the objects in memory: every handle is
    valid, and two objects never hold the same buffer. *)
Definition Mem_wf (m : Mem) : Prop :=
  (∀ i a, objs m !! i = Some a → Str.valid (bufs m) (msg a)) ∧
  (∀ i j a b l, objs m !! i = Some a → objs m !! j = Some b →
     Str.ptr (msg a) = Some l → Str.ptr (msg b) = Some l → i = j).

(** No buffer is lost: every live buffer is held by an object. *)
Definition Mem_tight (m : Mem) : Prop :=
  ∀ l, is_Some (bufs m !! l) →
       ∃ i a, objs m !! i = Some a ∧ Str.ptr (msg a) = Some l.

(** [Err()] at [this]. *)
Definition Err_default_at (this : nat) : M Mem unit :=
  set_msg this (msg Err_default).

(** ** Programs over Err objects

    The member functions of [Err], as the steps of a program whose objects
    are named by their addresses. *)
Section Programs.

Context {Fmt Args : Type}.
Variable render : Fmt → Args → list ascii.

Inductive op : Type :=
| op_default (this : nat)
| op_fmt (this : nat) (fmt : Fmt) (args : Args)
| op_copy (this other : nat)
| op_move (this other : nat)
| op_assign_copy (this other : nat)
| op_assign_move (this other : nat)
| op_dtor (this : nat).

Definition run_op (o : op) : M Mem unit :=
  match o with
  | op_default this => Err_default_at this
  | op_fmt this fmt args => Err_fmt_at render this fmt args
  | op_copy this other => Err_copy_at this other
  | op_move this other => Err_move_at this other
  | op_assign_copy this other => Err_assign_copy this other
  | op_assign_move this other => Err_assign_move this other
  | op_dtor this => Err_dtor_at this
  end.

(** What the language asks of a step: a constructor builds an object where
    there is none, and every other object a step names is alive. *)
Definition op_ok (m : Mem) (o : op) : Prop :=
  match o with
  | op_default this | op_fmt this _ _ => objs m !! this = None
  | op_copy this other | op_move this other =>
      objs m !! this = None ∧ is_Some (objs m !! other)
  | op_assign_copy this other | op_assign_move this other =>
      is_Some (objs m !! this) ∧ is_Some (objs m !! other)
  | op_dtor this => is_Some (objs m !! this)
  end.

Fixpoint run_ops (ops : list op) : M Mem unit :=
  match ops with
  | [] => M_ret tt
  | o :: rest => run_op o ;; run_ops rest
  end.

(** Every step of the program meets [op_ok] in the memory it runs in. *)
Fixpoint well_addressed (ops : list op) (m : Mem) : Prop :=
  match ops with
  | [] => True
  | o :: rest =>
      op_ok m o ∧
      match run_op o m with
      | Ret (_, m') => well_addressed rest m'
      | _ => True
      end
  end.

End Programs.

(** A format without placeholders renders as its own text. *)
Definition plain (fmt : string) (_ : unit) : list ascii := list_ascii_of_string fmt.

(* ===================================================================== *)
(** * Part 4: struct Result<T, E> (lines 60-132) *)
(* ===================================================================== *)

(** Lines 63-68: [enum STATE] and the values of its enumerators. *)
Inductive STATE : Type := STATE_EMPTY | STATE_ERROR | STATE_VALUE.

Definition STATE_val (s : STATE) : Z :=
  match s with
  | STATE_EMPTY => 0
  | STATE_ERROR => 1
  | STATE_VALUE => 2
  end%Z.

(** [state & bit], converted to [bool] (lines 102, 108, 115, 116). *)
Definition has_bit (s bit : STATE) : bool :=
  negb (Z.land (STATE_val s) (STATE_val bit) =? 0)%Z.

(** Lines 72-73:
<<
  size      = sizeof(T)  > sizeof(E)  ? sizeof(T)  : sizeof(E);
  alignment = alignof(T) > alignof(E) ? alignof(T) : alignof(E);
>>
    as functions of the sizes and alignments of the two types. *)
Definition Result_size (sizeof_T sizeof_E : N) : N :=
  if (sizeof_E <? sizeof_T)%N then sizeof_T else sizeof_E.

Definition Result_alignment (alignof_T alignof_E : N) : N :=
  if (alignof_E <? alignof_T)%N then alignof_T else alignof_E.

(** ** The compile-time check of line 70

    Types are compared by name, as [std::is_same_v] compares them. *)
Definition cpp_type : Type := string.

Definition is_same_v (A B : cpp_type) : bool := String.eqb A B.

Definition Err_type : cpp_type := "mn::Err"%string.
Definition Str_type : cpp_type := "mn::Str"%string.
Definition int_type : cpp_type := "int"%string.

(** Line 70: [static_assert(!std::is_same_v<Err, T>, "...")], evaluated
    when [Result<T, E>] is instantiated.  [true]: the instantiation is
    accepted. *)
Definition Result_static_assert (T E : cpp_type) : bool :=
  negb (is_same_v Err_type T).

(** ** Calls to the special members of the payload types

    [T] and [E] are template parameters: their constructors and destructors
    are code the template calls.  A call is run on the state [W] those
    members act on, and recorded. *)
Inductive call : Type := call_E_copy | call_T_ctor | call_E_dtor | call_T_dtor.

Record world (W : Type) : Type := mkWorld { user : W; calls : list call }.
Arguments mkWorld {W} _ _.
Arguments user {W} _.
Arguments calls {W} _.

Definition invoke {W A} (c : call) (f : M W A) : M (world W) A :=
  λ w, match f (user w) with
       | Ret (a, u) => Ret (a, {| user := u; calls := calls w ++ [c] |})
       | AssertFail => AssertFail
       | Undefined => Undefined
       end.

Section Result.

Context {W : Type}.
Variables T E TArgs : Type.

(** [E(e)], [T(args...)], [~E()] and [~T()]. *)
Variable E_copy : E → M W E.
Variable T_ctor : TArgs → M W T.
Variable E_dtor : E → M W unit.
Variable T_dtor : T → M W unit.

(** Line 74: [alignas(alignment) char _buffer[size]].  The buffer is
    known by the object that placement-new last built in it. *)
Inductive storage : Type :=
| Raw
| Holds_E (e : E)
| Holds_T (t : T).

(** Lines 74-75. *)
Record Result : Type := mkResult { _buffer : storage; state : STATE }.

(** [*(E* )_buffer] and [*(T* )_buffer]: reading the buffer at a type that
    is not live in it is undefined. *)
Definition as_E (b : storage) : outcome E :=
  match b with
  | Holds_E e => Ret e
  | _ => Undefined
  end.

Definition as_T (b : storage) : outcome T :=
  match b with
  | Holds_T t => Ret t
  | _ => Undefined
  end.

(** Lines 78-82:
<<
  Result(E e) { ::new (_buffer) E(e); state = STATE_ERROR; }
>> *)
Definition Result_error (e : E) : M (world W) Result :=
  p <- invoke call_E_copy (E_copy e) ;;
  M_ret {| _buffer := Holds_E p; state := STATE_ERROR |}.

(** Lines 85-90:
<<
  template<typename... TArgs>
  Result(TArgs&& ... args)
  { ::new (_buffer) T(std::forward<TArgs>(args)...); state = STATE_VALUE; }
>> *)
Definition Result_value (args : TArgs) : M (world W) Result :=
  p <- invoke call_T_ctor (T_ctor args) ;;
  M_ret {| _buffer := Holds_T p; state := STATE_VALUE |}.

(** The whole of [Result<T, E> r(x);] for an lvalue [x] of type [E]: the
    by-value parameter [e] of line 78 is copy-constructed from [x], the
    body runs, and [e] is destroyed when the constructor returns. *)
Definition Result_error_call (x : E) : M (world W) Result :=
  e <- invoke call_E_copy (E_copy x) ;;
  r <- Result_error e ;;
  invoke call_E_dtor (E_dtor e) ;;
  M_ret r.

(** Line 94: [Result(Result&&) = default], the member-wise move: the
    array [_buffer] and the enum [state] are copied.  Returns the new
    object and what [other] holds afterwards. *)
Definition Result_move (other : Result) : Result * Result :=
  let this := {| _buffer := _buffer other; state := state other |} in
  (this, other).

(** Line 98: [Result& operator=(Result&&) = default], member-wise as
    well; what [this] held before is overwritten.  When [this] and
    [other] are one object, both components are that object. *)
Definition Result_move_assign (this other : Result) : Result * Result :=
  let this' := {| _buffer := _buffer other; state := state other |} in
  (this', other).

(** Lines 100-113:
<<
  ~Result()
  {
      if (state & STATE_ERROR) { auto err = (E* )_buffer; err->~E(); }
      if (state & STATE_VALUE) { auto val = (T* )_buffer; val->~T(); }
  };
>> *)
Definition Result_dtor (r : Result) : M (world W) unit :=
  (if has_bit (state r) STATE_ERROR
   then err <- M_lift (as_E (_buffer r)) ;; invoke call_E_dtor (E_dtor err)
   else M_ret tt) ;;
  (if has_bit (state r) STATE_VALUE
   then val <- M_lift (as_T (_buffer r)) ;; invoke call_T_dtor (T_dtor val)
   else M_ret tt).

(** Line 115: [bool has_error() const { return state & STATE_ERROR; }] *)
Definition has_error (r : Result) : bool := has_bit (state r) STATE_ERROR.

(** Line 116: [bool has_value() const { return state & STATE_VALUE; }] *)
Definition has_value (r : Result) : bool := has_bit (state r) STATE_VALUE.

(** The accessors return a reference into [_buffer]; the reference is
    known by the object it designates. *)

(** Lines 117-121:
    [const E& error() const { mn_assert(has_error()); return *(const E* )_buffer; }] *)
Definition error_const (r : Result) : outcome E :=
  outcome_bind (mn_assert (has_error r)) (λ _, as_E (_buffer r)).

(** Lines 122-126:
    [E& error() { mn_assert(has_error()); return *(E* )_buffer; }] *)
Definition error (r : Result) : outcome E :=
  outcome_bind (mn_assert (has_error r)) (λ _, as_E (_buffer r)).

(** Lines 127-131:
    [T& value() { mn_assert(has_value()); return *(T* )_buffer; }] *)
Definition value (r : Result) : outcome T :=
  outcome_bind (mn_assert (has_value r)) (λ _, as_T (_buffer r)).

(** The invariant of the type: the discriminant tells which payload is
    live in the buffer. *)
Definition Result_wf (r : Result) : bool :=
  match state r, _buffer r with
  | STATE_EMPTY, _ => true
  | STATE_ERROR, Holds_E _ => true
  | STATE_VALUE, Holds_T _ => true
  | _, _ => false
  end.

End Result.

Arguments Raw {T E}.
Arguments Holds_E {T E} e.
Arguments Holds_T {T E} t.
Arguments mkResult {T E} _ _.
Arguments _buffer {T E} _.
Arguments state {T E} _.
Arguments as_E {T E} b.
Arguments as_T {T E} b.
Arguments Result_error {W T E} E_copy e.
Arguments Result_value {W T E TArgs} T_ctor args.
Arguments Result_error_call {W T E} E_copy E_dtor x.
Arguments Result_move {T E} other.
Arguments Result_move_assign {T E} this other.
Arguments Result_dtor {W T E} E_dtor T_dtor r.
Arguments has_error {T E} r.
Arguments has_value {T E} r.
Arguments error_const {T E} r.
Arguments error {T E} r.
Arguments value {T E} r.
Arguments Result_wf {T E} r.

(** ** Which constructor a call selects

    [Result<T, E> r(v);] with one argument has two candidates: the
    constructor of line 78, which takes an [E], and the template of lines
    85-90, which takes anything.  An argument whose type is [E] matches
    both exactly, and the non-template constructor of line 78 is preferred;
    for an argument of another type the template is the exact match. *)
Inductive ctor : Type := ctor_error | ctor_value.



(* ===================================================================== *)
(** * Part 5: the instantiation Result<int, Err> *)
(* ===================================================================== *)

Module IntErr.

(** [int] is built from an [int] by copying it and has a trivial
    destructor; neither touches the heap. *)
Definition int_ctor (v : Z) : M Str.heap Z := M_ret v.
Definition int_dtor (_ : Z) : M Str.heap unit := M_ret tt.

Abbreviation R := (Result Z Err).

Definition of_error (e : Err) : M (world Str.heap) R :=
  Result_error Err_copy e.

Definition of_value (v : Z) : M (world Str.heap) R :=
  Result_value int_ctor v.

Definition dtor (r : R) : M (world Str.heap) unit :=
  Result_dtor Err_dtor int_dtor r.

Definition start : world Str.heap := {| user := ∅; calls := [] |}.

(** The whole of [Result<int, Err> r(x);] for an lvalue [x]: the parameter
    [e] of line 78 is copy-constructed from [x], the constructor runs, and
    [e] is destroyed when it returns. *)
Definition of_lvalue (x : Err) : M (world Str.heap) R :=
  e <- invoke call_E_copy (Err_copy x) ;;
  r <- of_error e ;;
  invoke call_E_dtor (Err_dtor e) ;;
  M_ret r.

End IntErr.

(** [Result<int, int>]: the check of line 70 accepts it
    ([Result_static_assert int_type int_type]). *)
Module IntInt.

Abbreviation R := (Result Z Z).


End IntInt.

(** ** Sample objects *)

Module Sample.

(** [Err("X")], built at address 0 of an empty memory. *)
Definition one_error : M Mem unit := Err_fmt_at plain 0 "X"%string tt.

(** [Err a("X"); Err b("YZ");] at the addresses 0 and 1. *)
Definition two_errors : M Mem unit :=
  Err_fmt_at plain 0 "X"%string tt ;; Err_fmt_at plain 1 "YZ"%string tt.

(** The error [Err("file {} not found", "a.txt")], once rendered. *)
Definition not_found : M Str.heap Err :=
  Err_fmt plain "file a.txt not found"%string tt.

(** The heap and the error object after [not_found] has run. *)
Definition not_found_heap : Str.heap :=
  {[ 0 := list_ascii_of_string "file a.txt not found" ]}.
Definition not_found_err : Err := {| msg := {| Str.ptr := Some 0; Str.count := 20 |} |}.

(** The world in which [not_found_err] lives, with no call recorded. *)
Definition world1 : world Str.heap := {| user := not_found_heap; calls := [] |}.

(** A [Result<int, Err>] that holds [not_found_err]. *)
Definition failed : IntErr.R :=
  {| _buffer := Holds_E not_found_err; state := STATE_ERROR |}.

(** The memory after [two_errors]. *)
Definition mem2 : Mem :=
  Eval vm_compute in
    match two_errors Mem_empty with
    | Ret (_, m) => m
    | _ => Mem_empty
    end.

(** [{ Err a("X"); Err b(a); Err c(std::move(a)); b = c; a = std::move(b); }]
    with the destructors that run at the closing brace. *)
Definition block : list (@op string unit) :=
  [op_fmt 0 "X"%string tt; op_copy 1 0; op_move 2 0;
   op_assign_copy 1 2; op_assign_move 0 1;
   op_dtor 2; op_dtor 1; op_dtor 0].

(** The objects of [mem2]. *)
Definition err_a : Err := {| msg := {| Str.ptr := Some 0; Str.count := 1 |} |}.
Definition err_b : Err := {| msg := {| Str.ptr := Some 1; Str.count := 2 |} |}.

End Sample.

(* ===================================================================== *)
(** * Part 6: properties *)
(* ===================================================================== *)

Ltac unfold_M :=
  unfold M_bind, M_ret, M_lift, invoke, outcome_bind in *.

(** ** The discriminant *)

Lemma has_bit_ERROR s : has_bit s STATE_ERROR = true ↔ s = STATE_ERROR.
Proof. destruct s; split; intros H; try reflexivity; discriminate H. Qed.

Lemma has_bit_VALUE s : has_bit s STATE_VALUE = true ↔ s = STATE_VALUE.
Proof. destruct s; split; intros H; try reflexivity; discriminate H. Qed.

Lemma has_bit_exclusive s :
  s ≠ STATE_EMPTY → xorb (has_bit s STATE_ERROR) (has_bit s STATE_VALUE) = true.
Proof. destruct s; intros H; [contradiction | reflexivity | reflexivity]. Qed.

Section Result_facts.

Context {W : Type} {T E TArgs : Type}.
Variable E_copy : E → M W E.
Variable T_ctor : TArgs → M W T.
Variable E_dtor : E → M W unit.
Variable T_dtor : T → M W unit.

(** What the error constructor returns, read off the copy constructor of
    [E]. *)
Lemma Result_error_run (e : E) (w : world W) :
  Result_error E_copy e w =
  match E_copy e (user w) with
  | Ret (p, u) =>
      Ret ({| _buffer := (Holds_E p : storage T E); state := STATE_ERROR |},
           {| user := u; calls := calls w ++ [call_E_copy] |})
  | AssertFail => AssertFail
  | Undefined => Undefined
  end.
Proof.
  unfold Result_error. unfold_M.
  destruct (E_copy e (user w)) as [[p u]| |]; reflexivity.
Qed.

Lemma Result_value_run (args : TArgs) (w : world W) :
  Result_value T_ctor args w =
  match T_ctor args (user w) with
  | Ret (p, u) =>
      Ret ({| _buffer := (Holds_T p : storage T E); state := STATE_VALUE |},
           {| user := u; calls := calls w ++ [call_T_ctor] |})
  | AssertFail => AssertFail
  | Undefined => Undefined
  end.
Proof.
  unfold Result_value. unfold_M.
  destruct (T_ctor args (user w)) as [[p u]| |]; reflexivity.
Qed.

(** The constructors establish the invariant, and the moves keep it. *)
Lemma Result_error_wf (e : E) (w w' : world W) (r : Result T E) :
  Result_error E_copy e w = Ret (r, w') → Result_wf r = true.
Proof.
  rewrite Result_error_run.
  destruct (E_copy e (user w)) as [[p u]| |]; intros H; inversion H; reflexivity.
Qed.

Lemma Result_value_wf (args : TArgs) (w w' : world W) (r : Result T E) :
  Result_value T_ctor args w = Ret (r, w') → Result_wf r = true.
Proof.
  rewrite Result_value_run.
  destruct (T_ctor args (user w)) as [[p u]| |]; intros H; inversion H; reflexivity.
Qed.

Lemma Result_move_wf (other : Result T E) :
  Result_wf other = true →
  Result_wf (fst (Result_move other)) = true ∧
  Result_wf (snd (Result_move other)) = true.
Proof. intros H. destruct other as [b s]. split; exact H. Qed.

(** C1. Every [Result] a constructor returns has exactly one of
    [has_error()] and [has_value()] true: [has_error()] alone when it was
    built from an error, [has_value()] alone when it was built from value
    arguments. *)
Theorem Result_ctor_exactly_one :
  (∀ (e : E) (w w' : world W) (r : Result T E),
      Result_error E_copy e w = Ret (r, w') →
      has_error r = true ∧ has_value r = false ∧
      xorb (has_error r) (has_value r) = true) ∧
  (∀ (args : TArgs) (w w' : world W) (r : Result T E),
      Result_value T_ctor args w = Ret (r, w') →
      has_value r = true ∧ has_error r = false ∧
      xorb (has_error r) (has_value r) = true).
Proof.
  split.
  - intros e w w' r. rewrite Result_error_run.
    destruct (E_copy e (user w)) as [[p u]| |]; intros H; inversion H; subst.
    repeat split.
  - intros args w w' r. rewrite Result_value_run.
    destruct (T_ctor args (user w)) as [[p u]| |]; intros H; inversion H; subst.
    repeat split.
Qed.

(** The constructors return whenever the constructor of the payload
    does. *)
Lemma Result_error_returns (e p : E) (w : world W) (u : W) :
  E_copy e (user w) = Ret (p, u) →
  ∃ (r : Result T E) w', Result_error E_copy e w = Ret (r, w') ∧ _buffer r = Holds_E p.
Proof. intros H. rewrite Result_error_run, H. eexists _, _. split; reflexivity. Qed.

Lemma Result_value_returns (args : TArgs) (p : T) (w : world W) (u : W) :
  T_ctor args (user w) = Ret (p, u) →
  ∃ (r : Result T E) w', Result_value T_ctor args w = Ret (r, w') ∧ _buffer r = Holds_T p.
Proof. intros H. rewrite Result_value_run, H. eexists _, _. split; reflexivity. Qed.

(** ** The accessors *)

Lemma value_EMPTY (b : storage T E) :
  value {| _buffer := b; state := STATE_EMPTY |} = AssertFail.
Proof. reflexivity. Qed.

Lemma error_EMPTY (b : storage T E) :
  error {| _buffer := b; state := STATE_EMPTY |} = AssertFail.
Proof. reflexivity. Qed.

(** C2. [value()] on a result whose discriminant is ERROR, and [error()]
    (const or not) on one whose discriminant is VALUE, end in the fatal
    assertion.  When [has_value()] (respectively [has_error()]) is true the
    assertion does not fire, and on a result that satisfies the invariant
    of the type the accessor returns the payload that is live in the
    buffer. *)
Theorem Result_accessor_contract :
  (∀ b : storage T E, value {| _buffer := b; state := STATE_ERROR |} = AssertFail) ∧
  (∀ b : storage T E,
      error {| _buffer := b; state := STATE_VALUE |} = AssertFail ∧
      error_const {| _buffer := b; state := STATE_VALUE |} = AssertFail) ∧
  (∀ r : Result T E, has_value r = true →
      value r ≠ AssertFail ∧
      (Result_wf r = true → ∃ t, _buffer r = Holds_T t ∧ value r = Ret t)) ∧
  (∀ r : Result T E, has_error r = true →
      error r ≠ AssertFail ∧ error_const r ≠ AssertFail ∧
      (Result_wf r = true →
       ∃ e, _buffer r = Holds_E e ∧ error r = Ret e ∧ error_const r = Ret e)).
Proof.
  split; [reflexivity | split; [split; reflexivity | split]].
  - intros [b s] Hv. apply has_bit_VALUE in Hv. simpl in Hv. subst s.
    destruct b as [|e|t]; (split; [discriminate |]); try discriminate.
    intros _. exists t. split; reflexivity.
  - intros [b s] He. apply has_bit_ERROR in He. simpl in He. subst s.
    destruct b as [|e|t]; (split; [discriminate |]);
      (split; [discriminate |]); try discriminate.
    intros _. exists e. repeat split.
Qed.

(** ** Round trip through the value constructor *)


(** ** Moves *)


(** The source of a move is never left in the state EMPTY when it held a
    payload. *)
Lemma Result_move_source_not_reset (other : Result T E) :
  state other ≠ STATE_EMPTY → state (snd (Result_move other)) ≠ STATE_EMPTY.
Proof. intros H. exact H. Qed.

(** ** Destruction *)

Lemma invoke_calls {A} (c : call) (f : M W A) (w w' : world W) (a : A) :
  invoke c f w = Ret (a, w') → calls w' = calls w ++ [c].
Proof.
  unfold invoke. destruct (f (user w)) as [[a' u]| |]; intros H; inversion H.
  reflexivity.
Qed.

(** C9. The destructor of a result runs the destructor of [E] on the
    payload, and nothing else, when the discriminant is ERROR; the
    destructor of [T] on the payload, and nothing else, when it is VALUE;
    and no destructor when it is EMPTY, whatever the buffer holds.  In the
    record of calls, a destruction that returns adds exactly the one call
    of the live alternative. *)
Theorem Result_dtor_selects (w : world W) :
  (∀ e : E,
      Result_dtor E_dtor T_dtor {| _buffer := Holds_E e; state := STATE_ERROR |} w
      = invoke call_E_dtor (E_dtor e) w) ∧
  (∀ t : T,
      Result_dtor E_dtor T_dtor {| _buffer := Holds_T t; state := STATE_VALUE |} w
      = invoke call_T_dtor (T_dtor t) w) ∧
  (∀ b : storage T E,
      Result_dtor E_dtor T_dtor {| _buffer := b; state := STATE_EMPTY |} w
      = Ret (tt, w)) ∧
  (∀ (r : Result T E) (w' : world W),
      Result_wf r = true →
      Result_dtor E_dtor T_dtor r w = Ret (tt, w') →
      calls w' = calls w ++
                 match state r with
                 | STATE_EMPTY => []
                 | STATE_ERROR => [call_E_dtor]
                 | STATE_VALUE => [call_T_dtor]
                 end).
Proof.
  assert (HE : ∀ e : E,
      Result_dtor E_dtor T_dtor {| _buffer := Holds_E e; state := STATE_ERROR |} w
      = invoke call_E_dtor (E_dtor e) w).
  { intros e. unfold Result_dtor. simpl. unfold_M.
    destruct (E_dtor e (user w)) as [[[] u]| |]; reflexivity. }
  assert (HT : ∀ t : T,
      Result_dtor E_dtor T_dtor {| _buffer := Holds_T t; state := STATE_VALUE |} w
      = invoke call_T_dtor (T_dtor t) w).
  { intros t. unfold Result_dtor. simpl. unfold_M.
    destruct (T_dtor t (user w)) as [[[] u]| |]; reflexivity. }
  split; [exact HE | split; [exact HT | split]].
  - intros b. reflexivity.
  - intros [b s] w' Hwf Hrun. destruct s; simpl.
    + inversion Hrun. symmetry. apply app_nil_r.
    + destruct b; try discriminate Hwf. rewrite HE in Hrun.
      exact (invoke_calls _ _ _ _ _ Hrun).
    + destruct b; try discriminate Hwf. rewrite HT in Hrun.
      exact (invoke_calls _ _ _ _ _ Hrun).
Qed.

(** The destructor returns whenever the destructor of the live payload
    does. *)
Lemma Result_dtor_returns (r : Result T E) (w : world W) :
  Result_wf r = true →
  match _buffer r, state r with
  | Holds_E e, STATE_ERROR => ∃ x, E_dtor e (user w) = Ret x
  | Holds_T t, STATE_VALUE => ∃ x, T_dtor t (user w) = Ret x
  | _, _ => True
  end →
  ∃ w', Result_dtor E_dtor T_dtor r w = Ret (tt, w').
Proof.
  destruct r as [b s]. destruct s; simpl.
  - intros _ _. exists w. reflexivity.
  - destruct b; try discriminate. intros _ [[[] u] Hx].
    unfold Result_dtor. simpl. unfold_M. rewrite Hx. eexists. reflexivity.
  - destruct b; try discriminate. intros _ [[[] u] Hx].
    unfold Result_dtor. simpl. unfold_M. rewrite Hx. eexists. reflexivity.
Qed.

End Result_facts.

(** ** The character sequence behind a handle *)

Lemma take_length_all {A} (l : list A) : take (length l) l = l.
Proof. apply firstn_all. Qed.

(** The buffer an allocation returns is not live. *)
Lemma fresh_not_live (h : Str.heap) : h !! fresh (dom h) = None.
Proof. apply not_elem_of_dom, is_fresh. Qed.

Lemma chars_str_new (h : Str.heap) : Str.chars h Str.str_new = [].
Proof. reflexivity. Qed.

Lemma chars_str_clear (h : Str.heap) (s : Str.t) : Str.chars h (Str.str_clear s) = [].
Proof. unfold Str.chars, Str.str_clear. simpl. destruct (Str.ptr s); reflexivity. Qed.

Lemma chars_count_0 (h : Str.heap) (s : Str.t) : Str.count s = 0 → Str.chars h s = [].
Proof. unfold Str.chars. intros ->. destruct (Str.ptr s); reflexivity. Qed.

Lemma chars_length (h : Str.heap) (s : Str.t) :
  Str.valid h s → length (Str.chars h s) = Str.count s.
Proof.
  unfold Str.valid, Str.chars. destruct (Str.ptr s) as [l|].
  - intros (buf & -> & Hle). simpl. rewrite length_take. lia.
  - intros ->. reflexivity.
Qed.

(** A copy made by [clone] denotes the characters of the original. *)
Lemma chars_clone (s s' : Str.t) (h h' : Str.heap) :
  Str.clone s h = Ret (s', h') → Str.chars h' s' = Str.chars h s.
Proof.
  unfold Str.clone. intros H. inversion H; subst; clear H.
  unfold Str.chars at 1. simpl. rewrite lookup_insert_eq. simpl.
  apply take_length_all.
Qed.

(** The copy lives in a buffer that was not live before. *)
Lemma clone_fresh (s s' : Str.t) (h h' : Str.heap) :
  Str.clone s h = Ret (s', h') →
  ∃ l, Str.ptr s' = Some l ∧ h !! l = None ∧ h' = <[l := Str.chars h s]> h.
Proof.
  unfold Str.clone. intros H. inversion H; subst; clear H.
  eexists. split; [reflexivity | split; [| reflexivity]].
  apply not_elem_of_dom, is_fresh.
Qed.

(** Writing a buffer that was not live leaves every valid handle alone. *)
Lemma chars_insert_fresh (h : Str.heap) (l : nat) (buf : list ascii) (x : Str.t) :
  h !! l = None → Str.valid h x → Str.chars (<[l := buf]> h) x = Str.chars h x.
Proof.
  unfold Str.valid, Str.chars. intros Hl. destruct (Str.ptr x) as [lx|]; [| reflexivity].
  intros (bx & Hx & _). destruct (decide (l = lx)) as [->|Hne]; [congruence |].
  rewrite lookup_insert_ne by exact Hne. reflexivity.
Qed.

(** Releasing a buffer leaves the handles of the other buffers alone. *)
Lemma chars_delete_other (h : Str.heap) (l : nat) (x : Str.t) :
  Str.ptr x ≠ Some l → Str.chars (delete l h) x = Str.chars h x.
Proof.
  unfold Str.chars. destruct (Str.ptr x) as [lx|]; [| reflexivity].
  intros Hne. rewrite lookup_delete_ne by congruence. reflexivity.
Qed.

Lemma str_free_valid (h : Str.heap) (s : Str.t) :
  Str.valid h s → ∃ h', Str.str_free s h = Ret (tt, h') ∧
    ∀ x, (∀ l, Str.ptr s = Some l → Str.ptr x ≠ Some l) →
         Str.chars h' x = Str.chars h x.
Proof.
  unfold Str.valid, Str.str_free. destruct (Str.ptr s) as [l|].
  - intros (buf & Hbuf & _). rewrite Hbuf. rewrite decide_True by eauto.
    eexists. split; [reflexivity |]. intros x Hx.
    apply chars_delete_other. apply Hx. reflexivity.
  - intros _. eexists. split; [reflexivity |]. reflexivity.
Qed.

(** ** Round trip through the error constructor *)

(** X15. The payload outlives the parameter it was copied from: after the
    whole call [Result<int, Err> r(x)] the payload has a valid handle of
    its own and the message of [x]. *)
Lemma of_lvalue_roundtrip (x : Err) (w : world Str.heap) :
  ∃ r w' p,
    IntErr.of_lvalue x w = Ret (r, w') ∧
    error r = Ret p ∧ has_error r = true ∧ has_value r = false ∧
    Err_chars (user w') p = Err_chars (user w) x ∧
    Str.valid (user w') (msg p) ∧
    calls w' = calls w ++ [call_E_copy; call_E_copy; call_E_dtor].
Proof.
  set (h := user w). set (cx := Str.chars h (msg x)).
  set (l1 := fresh (dom h)). set (h1 := <[l1 := cx]> h).
  set (l2 := fresh (dom h1)).
  assert (Hl1 : h1 !! l1 = Some cx) by apply lookup_insert_eq.
  assert (Hne : l2 ≠ l1).
  { intros Heq. pose proof (fresh_not_live h1) as Hf. fold l2 in Hf.
    rewrite Heq, Hl1 in Hf. discriminate Hf. }
  assert (He : Str.chars h1 {| Str.ptr := Some l1; Str.count := length cx |} = cx).
  { unfold Str.chars. simpl. rewrite Hl1. simpl. apply take_length_all. }
  exists {| _buffer := Holds_E {| msg := {| Str.ptr := Some l2; Str.count := length cx |} |};
            state := STATE_ERROR |}.
  exists {| user := delete l1 (<[l2 := cx]> h1);
            calls := ((calls w ++ [call_E_copy]) ++ [call_E_copy]) ++ [call_E_dtor] |}.
  exists {| msg := {| Str.ptr := Some l2; Str.count := length cx |} |}.
  split; [| repeat split].
  - unfold IntErr.of_lvalue, IntErr.of_error, Result_error, Err_copy, Err_dtor.
    unfold Str.clone, Str.str_free. unfold_M. simpl.
    fold h cx l1 h1. rewrite He. fold l2.
    rewrite decide_True; [reflexivity |].
    rewrite lookup_insert_ne by exact Hne. rewrite Hl1. eauto.
  - unfold Err_chars, Str.chars. simpl.
    rewrite lookup_delete_ne by congruence. rewrite lookup_insert_eq. simpl.
    apply take_length_all.
  - unfold Str.valid. simpl. exists cx.
    rewrite lookup_delete_ne by congruence. rewrite lookup_insert_eq.
    split; reflexivity.
  - simpl. rewrite <- !app_assoc. reflexivity.
Qed.

(** ** Err objects in memory *)

Ltac unfold_Mem :=
  unfold load, set_msg, on_bufs, construct_at in *; unfold_M; simpl in *.

Lemma message_set (objs0 : gmap nat Err) (h : Str.heap) (a : nat) (s : Str.t) :
  message {| objs := <[a := {| msg := s |}]> objs0; bufs := h |} a
  = Some (Str.chars h s).
Proof. unfold message. simpl. rewrite lookup_insert_eq. reflexivity. Qed.

Lemma truthy_set (objs0 : gmap nat Err) (h : Str.heap) (a : nat) (s : Str.t) :
  truthy {| objs := <[a := {| msg := s |}]> objs0; bufs := h |} a
  = Some (negb (Str.count s =? 0)).
Proof. unfold truthy. simpl. rewrite lookup_insert_eq. reflexivity. Qed.

(** The boolean coercion of an object with a valid handle tells whether its
    message is empty. *)
Lemma Err_bool_chars (h : Str.heap) (e : Err) :
  Str.valid h (msg e) → (Err_bool e = false ↔ Err_chars h e = []).
Proof.
  intros Hv. unfold Err_bool, Err_chars.
  pose proof (chars_length _ _ Hv) as Hlen.
  destruct (Str.count (msg e)) as [|n] eqn:Hc; simpl.
  - split; [intros _ | reflexivity]. apply nil_length_inv. exact Hlen.
  - split; [discriminate |]. intros Hnil. rewrite Hnil in Hlen. discriminate Hlen.
Qed.

(** *** Boolean coercion *)

(** A default-constructed error is no error. *)
Lemma Err_default_false : Err_bool Err_default = false.
Proof. reflexivity. Qed.

(** An error built from a format holds the rendered text, and is an error
    exactly when that text is not empty. *)
Lemma Err_fmt_spec {Fmt Args} (render : Fmt → Args → list ascii)
    (fmt : Fmt) (args : Args) (h : Str.heap) :
  ∃ e h', Err_fmt render fmt args h = Ret (e, h') ∧
          Err_chars h' e = render fmt args ∧
          Err_bool e = negb (length (render fmt args) =? 0).
Proof.
  eexists _, _. split; [reflexivity |]. split; [| reflexivity].
  unfold Err_chars, Str.chars. simpl. rewrite lookup_insert_eq. simpl.
  apply take_length_all.
Qed.

(** [==] and [!=] against a boolean compare the coercion. *)
Lemma Err_eq_spec (e : Err) (v : bool) : Err_eq e v = true ↔ Err_bool e = v.
Proof. unfold Err_eq, Err_bool. apply Bool.eqb_true_iff. Qed.

Lemma Err_ne_spec (e : Err) (v : bool) : Err_ne e v = true ↔ Err_bool e ≠ v.
Proof.
  unfold Err_ne. rewrite negb_true_iff, <- Err_eq_spec.
  destruct (Err_eq e v); split; congruence.
Qed.

(** *** Copy assignment *)

(** What [str_push] stores when the destination has just been cleared. *)
Lemma str_push_cleared (a b : Str.t) (h : Str.heap) :
  ∃ s h', Str.str_push (Str.str_clear a) b h = Ret (s, h') ∧
          Str.chars h' s = Str.chars h b ∧
          Str.count s = length (Str.chars h b) ∧
          Str.chars h' b = Str.chars h b.
Proof.
  unfold Str.str_push. simpl. rewrite chars_str_clear.
  destruct (Str.ptr a) as [l|] eqn:Hp; simpl.
  - eexists _, _. split; [reflexivity |]. split; [| split; [reflexivity |]].
    + unfold Str.chars at 1. simpl. rewrite lookup_insert_eq. simpl.
      apply take_length_all.
    + unfold Str.chars. destruct (Str.ptr b) as [lb|]; [| reflexivity].
      destruct (decide (l = lb)) as [->|Hne].
      * rewrite lookup_insert_eq. simpl. rewrite take_take. f_equal. lia.
      * rewrite lookup_insert_ne by exact Hne. reflexivity.
  - eexists _, _. split; [reflexivity |]. split; [| split; [reflexivity |]].
    + unfold Str.chars at 1. simpl. rewrite lookup_insert_eq. simpl.
      apply take_length_all.
    + unfold Str.chars. destruct (Str.ptr b) as [lb|]; [| reflexivity].
      destruct (decide (fresh (dom h) = lb)) as [Heq|Hne].
      * rewrite <- Heq. rewrite lookup_insert_eq.
        assert (Hnone : h !! fresh (dom h) = None)
          by apply not_elem_of_dom, is_fresh.
        rewrite Hnone. simpl. rewrite take_take. f_equal. lia.
      * rewrite lookup_insert_ne by exact Hne. reflexivity.
Qed.

(** Copy assignment between two objects: the destination gets the message
    of the source, and the source keeps it. *)
Lemma Err_assign_copy_distinct (m : Mem) (this other : nat) (a b : Err) :
  objs m !! this = Some a → objs m !! other = Some b → this ≠ other →
  ∃ m', Err_assign_copy this other m = Ret (tt, m') ∧
        message m' this = Some (Err_chars (bufs m) b) ∧
        message m' other = Some (Err_chars (bufs m) b).
Proof.
  intros Ha Hb Hne.
  destruct (str_push_cleared (msg a) (msg b) (bufs m)) as (s & h' & Hpush & Hs & _ & Hb').
  exists {| objs := <[this := {| msg := s |}]>
                     (<[this := {| msg := Str.str_clear (msg a) |}]> (objs m));
            bufs := h' |}.
  split; [| split].
  - unfold Err_assign_copy. unfold_Mem. rewrite Ha. simpl.
    rewrite lookup_insert_eq. simpl.
    rewrite lookup_insert_ne by exact Hne. rewrite Hb. simpl.
    rewrite Hpush. reflexivity.
  - rewrite message_set. f_equal. exact Hs.
  - unfold message. simpl. rewrite !lookup_insert_ne by exact Hne. rewrite Hb.
    simpl. f_equal. exact Hb'.
Qed.

(** Copy assignment of an object to itself: the first statement clears the
    message, and the second appends the cleared message to itself. *)
Lemma Err_assign_copy_self (m : Mem) (this : nat) (a : Err) :
  objs m !! this = Some a →
  ∃ m', Err_assign_copy this this m = Ret (tt, m') ∧
        message m' this = Some [] ∧ truthy m' this = Some false.
Proof.
  intros Ha.
  destruct (str_push_cleared (msg a) (Str.str_clear (msg a)) (bufs m))
    as (s & h' & Hpush & Hs & Hc & _).
  rewrite chars_str_clear in Hs, Hc.
  exists {| objs := <[this := {| msg := s |}]>
                     (<[this := {| msg := Str.str_clear (msg a) |}]> (objs m));
            bufs := h' |}.
  split; [| split].
  - unfold Err_assign_copy. unfold_Mem. rewrite Ha. simpl.
    rewrite lookup_insert_eq. simpl. rewrite lookup_insert_eq. simpl.
    rewrite Hpush. reflexivity.
  - rewrite message_set. f_equal. exact Hs.
  - rewrite truthy_set. rewrite Hc. reflexivity.
Qed.

(** C6 (the header does not do this). A copy assignment is meant to leave
    in the destination the message the source held, also when the two are
    one object.  On [Err a("X"); a = a;] the header leaves [a] with the
    empty message: [a] held "X" before the assignment and holds nothing
    after it. *)
Theorem Err_self_assign_loses_message :
  ∃ m m' : Mem,
    Sample.one_error Mem_empty = Ret (tt, m) ∧
    message m 0 = Some (list_ascii_of_string "X") ∧
    truthy m 0 = Some true ∧
    Err_assign_copy 0 0 m = Ret (tt, m') ∧
    message m' 0 = Some [] ∧
    truthy m' 0 = Some false.
Proof.
  eexists _, _.
  split; [vm_compute; reflexivity |].
  repeat split; vm_compute; reflexivity.
Qed.

(** *** Moves *)

(** The move constructor, on the objects themselves. *)
Lemma Err_move_spec (other : Err) (h : Str.heap) :
  let '(this, other') := Err_move other in
  Err_chars h this = Err_chars h other ∧
  Err_bool other' = false ∧ Err_chars h other' = [].
Proof. repeat split. Qed.

Lemma Err_move_at_run (m : Mem) (this other : nat) (b : Err) :
  objs m !! other = Some b →
  Err_move_at this other m =
  Ret (tt, {| objs := <[other := {| msg := Str.str_new |}]>
                        (<[this := {| msg := msg b |}]> (objs m));
              bufs := bufs m |}).
Proof.
  intros Hb. unfold Err_move_at, Err_move. unfold_Mem. rewrite Hb. reflexivity.
Qed.

Lemma Err_assign_move_run (m : Mem) (this other : nat) (a b : Err) (h' : Str.heap) :
  objs m !! this = Some a → objs m !! other = Some b →
  Str.str_free (msg a) (bufs m) = Ret (tt, h') →
  Err_assign_move this other m =
  Ret (tt, {| objs := <[other := {| msg := Str.str_new |}]>
                        (<[this := {| msg := msg b |}]> (objs m));
              bufs := h' |}).
Proof.
  intros Ha Hb Hfree. unfold Err_assign_move. unfold_Mem.
  rewrite Ha. simpl. rewrite Hfree. simpl. rewrite Hb. reflexivity.
Qed.

(** Move assignment of an object to itself leaves it empty. *)
Lemma Err_assign_move_self (m : Mem) (this : nat) (a : Err) :
  objs m !! this = Some a → Str.valid (bufs m) (msg a) →
  ∃ m', Err_assign_move this this m = Ret (tt, m') ∧
        message m' this = Some [] ∧ truthy m' this = Some false.
Proof.
  intros Ha Hv. destruct (str_free_valid _ _ Hv) as (h' & Hfree & _).
  eexists. split; [exact (Err_assign_move_run _ _ _ _ _ _ Ha Ha Hfree) |].
  rewrite message_set, truthy_set. split; reflexivity.
Qed.

(** C8. After an [Err] is move-constructed at [this], or move-assigned to
    the object at [this], from the object at [other], the boolean coercion
    of [other] is false and its message is the empty string; the
    destination, an object other than the source that shares no buffer with
    it, carries the message the source held before. *)
Theorem Err_move_empties_source (m : Mem) (this other : nat) (b : Err) :
  objs m !! other = Some b →
  (objs m !! this = None →
   ∃ m', Err_move_at this other m = Ret (tt, m') ∧
         truthy m' other = Some false ∧
         message m' other = Some [] ∧
         message m' this = Some (Err_chars (bufs m) b)) ∧
  (∀ a, objs m !! this = Some a → Str.valid (bufs m) (msg a) →
   ∃ m', Err_assign_move this other m = Ret (tt, m') ∧
         truthy m' other = Some false ∧
         message m' other = Some [] ∧
         (this ≠ other →
          (∀ l, Str.ptr (msg a) = Some l → Str.ptr (msg b) ≠ Some l) →
          message m' this = Some (Err_chars (bufs m) b))).
Proof.
  intros Hb. split.
  - intros Hthis.
    assert (Hne : other ≠ this) by congruence.
    eexists. split; [exact (Err_move_at_run _ _ _ _ Hb) |].
    rewrite message_set, truthy_set. repeat split.
    unfold message. simpl. rewrite lookup_insert_ne by exact Hne.
    rewrite lookup_insert_eq. reflexivity.
  - intros a Ha Hv.
    destruct (str_free_valid _ _ Hv) as (h' & Hfree & Hframe).
    eexists. split; [exact (Err_assign_move_run _ _ _ _ _ _ Ha Hb Hfree) |].
    rewrite message_set, truthy_set. repeat split.
    intros Hne Hshare. unfold message. simpl.
    rewrite lookup_insert_ne by congruence. rewrite lookup_insert_eq. simpl.
    f_equal. apply Hframe. exact Hshare.
Qed.

(** *** Ownership

    The member functions of [Err] keep the ownership discipline, so the
    side conditions of the lemmas above hold in every memory the program
    reaches through them. *)

Lemma valid_insert_other (h : Str.heap) (l : nat) (buf : list ascii) (x : Str.t) :
  Str.ptr x ≠ Some l → Str.valid h x → Str.valid (<[l := buf]> h) x.
Proof.
  unfold Str.valid. destruct (Str.ptr x) as [lx|]; [| intros _ H; exact H].
  intros Hne (bx & Hx & Hle). exists bx. split; [| exact Hle].
  rewrite lookup_insert_ne by congruence. exact Hx.
Qed.

Lemma valid_delete_other (h : Str.heap) (l : nat) (x : Str.t) :
  Str.ptr x ≠ Some l → Str.valid h x → Str.valid (delete l h) x.
Proof.
  unfold Str.valid. destruct (Str.ptr x) as [lx|]; [| intros _ H; exact H].
  intros Hne (bx & Hx & Hle). exists bx. split; [| exact Hle].
  rewrite lookup_delete_ne by congruence. exact Hx.
Qed.

Lemma valid_live (h : Str.heap) (l : nat) (x : Str.t) :
  Str.valid h x → Str.ptr x = Some l → is_Some (h !! l).
Proof.
  unfold Str.valid. intros Hv Hp. rewrite Hp in Hv.
  destruct Hv as (bx & Hx & _). eauto.
Qed.

Lemma valid_str_new (h : Str.heap) : Str.valid h Str.str_new.
Proof. reflexivity. Qed.

Lemma Mem_wf_empty : Mem_wf Mem_empty.
Proof.
  split.
  - intros i a H. simpl in H. rewrite lookup_empty in H. discriminate H.
  - intros i j a b l H. simpl in H. rewrite lookup_empty in H. discriminate H.
Qed.

(** Giving the object at [this] a handle [s] on the buffer [l], which no
    other object holds, and writing [buf] there. *)
Lemma Mem_wf_write (m : Mem) (this l : nat) (buf : list ascii) (s : Str.t) :
  Mem_wf m →
  (∀ j b, objs m !! j = Some b → j ≠ this → Str.ptr (msg b) ≠ Some l) →
  Str.ptr s = Some l → Str.count s ≤ length buf →
  Mem_wf {| objs := <[this := {| msg := s |}]> (objs m);
            bufs := <[l := buf]> (bufs m) |}.
Proof.
  intros [Hvalid Hown] Hfree Hp Hc. split; simpl.
  - intros i a Hi. destruct (decide (i = this)) as [->|Hne].
    + rewrite lookup_insert_eq in Hi. inversion Hi; subst a; clear Hi.
      unfold Str.valid. simpl. rewrite Hp. exists buf.
      split; [apply lookup_insert_eq | exact Hc].
    + rewrite lookup_insert_ne in Hi by congruence.
      apply valid_insert_other; [exact (Hfree _ _ Hi Hne) | exact (Hvalid _ _ Hi)].
  - intros i j a b l' Hi Hj Ha Hb.
    destruct (decide (i = this)) as [->|Hi'], (decide (j = this)) as [->|Hj'];
      [reflexivity | | |].
    + rewrite lookup_insert_eq in Hi. inversion Hi; subst a; clear Hi.
      rewrite lookup_insert_ne in Hj by congruence. simpl in Ha.
      rewrite Hp in Ha. inversion Ha; subst l'.
      destruct (Hfree _ _ Hj Hj' Hb).
    + rewrite lookup_insert_eq in Hj. inversion Hj; subst b; clear Hj.
      rewrite lookup_insert_ne in Hi by congruence. simpl in Hb.
      rewrite Hp in Hb. inversion Hb; subst l'.
      destruct (Hfree _ _ Hi Hi' Ha).
    + rewrite lookup_insert_ne in Hi by congruence.
      rewrite lookup_insert_ne in Hj by congruence.
      exact (Hown _ _ _ _ _ Hi Hj Ha Hb).
Qed.

(** A buffer that is not live is held by no object. *)
Lemma Mem_wf_not_live (m : Mem) (l j : nat) (b : Err) :
  Mem_wf m → bufs m !! l = None → objs m !! j = Some b → Str.ptr (msg b) ≠ Some l.
Proof.
  intros [Hvalid _] Hl Hj Hp.
  destruct (valid_live _ _ _ (Hvalid _ _ Hj) Hp) as [x Hx]. congruence.
Qed.

(** [Err(fmt, args...)] at [this] keeps the discipline and holds the
    rendered text. *)
Lemma Err_fmt_at_wf {Fmt Args} (render : Fmt → Args → list ascii)
    (m : Mem) (this : nat) (fmt : Fmt) (args : Args) :
  Mem_wf m →
  ∃ m', Err_fmt_at render this fmt args m = Ret (tt, m') ∧ Mem_wf m' ∧
        message m' this = Some (render fmt args) ∧
        truthy m' this = Some (negb (length (render fmt args) =? 0)).
Proof.
  intros Hwf. eexists. split; [reflexivity |]. simpl. split; [| split].
  - apply Mem_wf_write; [exact Hwf | | reflexivity | reflexivity].
    intros j b Hj _. exact (Mem_wf_not_live _ _ _ _ Hwf (fresh_not_live _) Hj).
  - rewrite message_set. unfold Str.chars. simpl. rewrite lookup_insert_eq.
    simpl. f_equal. apply take_length_all.
  - rewrite truthy_set. reflexivity.
Qed.

(** [Err(const Err& other)] at [this]: the copy has the message of the
    original, which keeps its own. *)
Lemma Err_copy_at_wf (m : Mem) (this other : nat) (b : Err) :
  Mem_wf m → objs m !! other = Some b → this ≠ other →
  ∃ m', Err_copy_at this other m = Ret (tt, m') ∧ Mem_wf m' ∧
        message m' this = Some (Err_chars (bufs m) b) ∧
        message m' other = Some (Err_chars (bufs m) b).
Proof.
  intros Hwf Hb Hne.
  eexists. split; [unfold Err_copy_at, Err_copy; unfold_Mem; rewrite Hb; reflexivity |].
  simpl. split; [| split].
  - apply Mem_wf_write; [exact Hwf | | reflexivity | reflexivity].
    intros j c Hj _. exact (Mem_wf_not_live _ _ _ _ Hwf (fresh_not_live _) Hj).
  - rewrite message_set. unfold Str.chars at 1. simpl. rewrite lookup_insert_eq.
    simpl. f_equal. apply take_length_all.
  - unfold message. simpl. rewrite lookup_insert_ne by exact Hne. rewrite Hb.
    simpl. f_equal. apply chars_insert_fresh; [apply fresh_not_live |].
    destruct Hwf as [Hvalid _]. exact (Hvalid _ _ Hb).
Qed.

(** Copy assignment keeps the discipline, whether or not the two objects
    are one. *)
Lemma Err_assign_copy_wf (m : Mem) (this other : nat) (a b : Err) :
  Mem_wf m → objs m !! this = Some a → objs m !! other = Some b →
  ∃ m', Err_assign_copy this other m = Ret (tt, m') ∧ Mem_wf m'.
Proof.
  intros Hwf Ha Hb.
  set (b' := if decide (other = this) then {| msg := Str.str_clear (msg a) |} else b).
  assert (Hrun : ∃ s h', Str.str_push (Str.str_clear (msg a)) (msg b') (bufs m) = Ret (s, h') ∧
            Err_assign_copy this other m =
            Ret (tt, {| objs := <[this := {| msg := s |}]>
                                  (<[this := {| msg := Str.str_clear (msg a) |}]> (objs m));
                        bufs := h' |})).
  { destruct (str_push_cleared (msg a) (msg b') (bufs m)) as (s & h' & Hpush & _).
    exists s, h'. split; [exact Hpush |].
    unfold Err_assign_copy. unfold_Mem. rewrite Ha. simpl.
    rewrite lookup_insert_eq. simpl. subst b'.
    destruct (decide (other = this)) as [->|Hne].
    - rewrite lookup_insert_eq. simpl. simpl in Hpush. rewrite Hpush. reflexivity.
    - rewrite lookup_insert_ne by congruence. rewrite Hb. simpl.
      rewrite Hpush. reflexivity. }
  destruct Hrun as (s & h' & Hpush & Hrun).
  eexists. split; [exact Hrun |].
  rewrite insert_insert_eq.
  unfold Str.str_push in Hpush. rewrite chars_str_clear in Hpush.
  change (Str.ptr (Str.str_clear (msg a))) with (Str.ptr (msg a)) in Hpush.
  change (Str.count (Str.str_clear (msg a))) with 0 in Hpush.
  destruct (Str.ptr (msg a)) as [l|] eqn:Hp; inversion Hpush; subst s h'; clear Hpush.
  - apply Mem_wf_write; [exact Hwf | | reflexivity | reflexivity].
    intros j c Hj Hne Hc. destruct Hwf as [_ Hown].
    exact (Hne (Hown _ _ _ _ _ Hj Ha Hc Hp)).
  - apply Mem_wf_write; [exact Hwf | | reflexivity | reflexivity].
    intros j c Hj _. exact (Mem_wf_not_live _ _ _ _ Hwf (fresh_not_live _) Hj).
Qed.

(** Handing the handle of [other] to [this], whose own buffer (if any) has
    been released, and leaving [other] empty. *)
Lemma Mem_wf_hand_over (m : Mem) (this other : nat) (b : Err) (h' : Str.heap) :
  Mem_wf m → objs m !! other = Some b →
  (∀ j c, objs m !! j = Some c → j ≠ this → Str.valid h' (msg c)) →
  Mem_wf {| objs := <[other := {| msg := Str.str_new |}]>
                      (<[this := {| msg := msg b |}]> (objs m));
            bufs := h' |}.
Proof.
  intros [Hvalid Hown] Hb Hkeep. split; simpl.
  - intros i a Hi. destruct (decide (i = other)) as [->|Hio].
    + rewrite lookup_insert_eq in Hi. inversion Hi. apply valid_str_new.
    + rewrite lookup_insert_ne in Hi by congruence.
      destruct (decide (i = this)) as [->|Hit].
      * rewrite lookup_insert_eq in Hi. inversion Hi; subst a. simpl.
        apply (Hkeep other b Hb). congruence.
      * rewrite lookup_insert_ne in Hi by congruence. exact (Hkeep _ _ Hi Hit).
  - assert (Hlook : ∀ i a l, i ≠ other →
              <[this := {| msg := msg b |}]> (objs m) !! i = Some a →
              Str.ptr (msg a) = Some l →
              (i = this ∧ Str.ptr (msg b) = Some l) ∨
              (i ≠ this ∧ objs m !! i = Some a)).
    { intros i a l _ Hi Ha. destruct (decide (i = this)) as [->|Hit].
      - rewrite lookup_insert_eq in Hi. inversion Hi; subst a. left. split; [reflexivity | exact Ha].
      - rewrite lookup_insert_ne in Hi by congruence. right. split; assumption. }
    intros i j a c l Hi Hj Ha Hc.
    destruct (decide (i = other)) as [->|Hio].
    { rewrite lookup_insert_eq in Hi. inversion Hi; subst a. discriminate Ha. }
    destruct (decide (j = other)) as [->|Hjo].
    { rewrite lookup_insert_eq in Hj. inversion Hj; subst c. discriminate Hc. }
    rewrite lookup_insert_ne in Hi by congruence.
    rewrite lookup_insert_ne in Hj by congruence.
    destruct (Hlook _ _ _ Hio Hi Ha) as [[-> Hbl] | [Hit Hi']],
             (Hlook _ _ _ Hjo Hj Hc) as [[-> Hbl'] | [Hjt Hj']].
    + reflexivity.
    + destruct Hjo. exact (Hown _ _ _ _ _ Hj' Hb Hc Hbl).
    + destruct Hio. exact (Hown _ _ _ _ _ Hi' Hb Ha Hbl').
    + exact (Hown _ _ _ _ _ Hi' Hj' Ha Hc).
Qed.

(** [Err(Err&& other)] at a free address keeps the discipline. *)
Lemma Err_move_at_wf (m : Mem) (this other : nat) (b : Err) :
  Mem_wf m → objs m !! other = Some b → objs m !! this = None →
  ∃ m', Err_move_at this other m = Ret (tt, m') ∧ Mem_wf m'.
Proof.
  intros Hwf Hb Hthis. eexists. split; [exact (Err_move_at_run _ _ _ _ Hb) |].
  apply Mem_wf_hand_over; [exact Hwf | exact Hb |].
  intros j c Hj _. destruct Hwf as [Hvalid _]. exact (Hvalid _ _ Hj).
Qed.

(** Move assignment keeps the discipline; under it the destination has a
    valid handle, and two objects share no buffer. *)
Lemma Err_assign_move_wf (m : Mem) (this other : nat) (a b : Err) :
  Mem_wf m → objs m !! this = Some a → objs m !! other = Some b →
  (∃ m', Err_assign_move this other m = Ret (tt, m') ∧ Mem_wf m') ∧
  Str.valid (bufs m) (msg a) ∧
  (this ≠ other → ∀ l, Str.ptr (msg a) = Some l → Str.ptr (msg b) ≠ Some l).
Proof.
  intros Hwf Ha Hb. pose proof Hwf as [Hvalid Hown].
  assert (Hshare : ∀ j c l, objs m !! j = Some c → j ≠ this →
            Str.ptr (msg a) = Some l → Str.ptr (msg c) ≠ Some l).
  { intros j c l Hj Hne Hp Hc. exact (Hne (Hown _ _ _ _ _ Hj Ha Hc Hp)). }
  split; [| split; [exact (Hvalid _ _ Ha) |]].
  - assert (Hfree : ∃ h', Str.str_free (msg a) (bufs m) = Ret (tt, h') ∧
              ∀ j c, objs m !! j = Some c → j ≠ this → Str.valid h' (msg c)).
    { unfold Str.str_free. destruct (Str.ptr (msg a)) as [l|] eqn:Hp.
      - rewrite decide_True by exact (valid_live _ _ _ (Hvalid _ _ Ha) Hp).
        eexists. split; [reflexivity |]. intros j c Hj Hne.
        apply valid_delete_other; [exact (Hshare _ _ _ Hj Hne eq_refl) | exact (Hvalid _ _ Hj)].
      - eexists. split; [reflexivity |]. intros j c Hj _. exact (Hvalid _ _ Hj). }
    destruct Hfree as (h' & Hfree & Hkeep).
    eexists. split; [exact (Err_assign_move_run _ _ _ _ _ _ Ha Hb Hfree) |].
    apply Mem_wf_hand_over; [exact Hwf | exact Hb | exact Hkeep].
  - intros Hne l Hp. apply (Hshare other b l Hb); [congruence | exact Hp].
Qed.

(** [~Err()] keeps the discipline. *)
Lemma Err_dtor_at_wf (m : Mem) (this : nat) (a : Err) :
  Mem_wf m → objs m !! this = Some a →
  ∃ m', Err_dtor_at this m = Ret (tt, m') ∧ Mem_wf m' ∧ objs m' !! this = None.
Proof.
  intros Hwf Ha. pose proof Hwf as [Hvalid Hown].
  assert (Hfree : ∃ h', Str.str_free (msg a) (bufs m) = Ret (tt, h') ∧
            ∀ j c, objs m !! j = Some c → j ≠ this → Str.valid h' (msg c)).
  { unfold Str.str_free. destruct (Str.ptr (msg a)) as [l|] eqn:Hp.
    - rewrite decide_True by exact (valid_live _ _ _ (Hvalid _ _ Ha) Hp).
      eexists. split; [reflexivity |]. intros j c Hj Hne.
      apply valid_delete_other; [| exact (Hvalid _ _ Hj)].
      intros Hc. exact (Hne (Hown _ _ _ _ _ Hj Ha Hc Hp)).
    - eexists. split; [reflexivity |]. intros j c Hj _. exact (Hvalid _ _ Hj). }
  destruct Hfree as (h' & Hfree & Hkeep).
  exists {| objs := delete this (objs m); bufs := h' |}.
  split; [| split].
  - unfold Err_dtor_at, Err_dtor. unfold_Mem. rewrite Ha. simpl.
    rewrite Hfree. reflexivity.
  - split; simpl.
    + intros i c Hi. apply lookup_delete_Some in Hi as [Hne Hi].
      exact (Hkeep _ _ Hi (not_eq_sym Hne)).
    + intros i j c d l Hi Hj. apply lookup_delete_Some in Hi as [_ Hi].
      apply lookup_delete_Some in Hj as [_ Hj]. exact (Hown _ _ _ _ _ Hi Hj).
  - simpl. apply lookup_delete_eq.
Qed.

(** *** What each member function leaves in memory *)

Lemma chars_insert_other (h : Str.heap) (l : nat) (buf : list ascii) (x : Str.t) :
  Str.ptr x ≠ Some l → Str.chars (<[l := buf]> h) x = Str.chars h x.
Proof.
  unfold Str.chars. destruct (Str.ptr x) as [lx|]; [| reflexivity].
  intros Hne. rewrite lookup_insert_ne by congruence. reflexivity.
Qed.

Lemma chars_insert_same (h : Str.heap) (l : nat) (buf : list ascii) :
  Str.chars (<[l := buf]> h) {| Str.ptr := Some l; Str.count := length buf |} = buf.
Proof.
  unfold Str.chars. simpl. rewrite lookup_insert_eq. simpl. apply take_length_all.
Qed.

(** Releasing a valid handle returns, and removes its buffer. *)
Lemma str_free_run (h : Str.heap) (s : Str.t) :
  Str.valid h s →
  Str.str_free s h =
  Ret (tt, match Str.ptr s with Some l => delete l h | None => h end).
Proof.
  unfold Str.valid, Str.str_free. destruct (Str.ptr s) as [l|]; [| reflexivity].
  intros (buf & Hbuf & _). rewrite decide_True by eauto. reflexivity.
Qed.

Lemma Err_copy_at_run (m : Mem) (this other : nat) (b : Err) :
  objs m !! other = Some b →
  let l := fresh (dom (bufs m)) in
  let c := Err_chars (bufs m) b in
  Err_copy_at this other m =
  Ret (tt, {| objs := <[this := {| msg := {| Str.ptr := Some l; Str.count := length c |} |}]> (objs m);
              bufs := <[l := c]> (bufs m) |}).
Proof.
  intros Hb. unfold Err_copy_at, Err_copy. unfold_Mem. rewrite Hb. reflexivity.
Qed.

Lemma Err_assign_copy_run (m : Mem) (this other : nat) (a b : Err) :
  objs m !! this = Some a → objs m !! other = Some b →
  let l := match Str.ptr (msg a) with
           | Some l => l
           | None => fresh (dom (bufs m))
           end in
  let c := if decide (other = this) then [] else Err_chars (bufs m) b in
  Err_assign_copy this other m =
  Ret (tt, {| objs := <[this := {| msg := {| Str.ptr := Some l; Str.count := length c |} |}]> (objs m);
              bufs := <[l := c]> (bufs m) |}).
Proof.
  intros Ha Hb. unfold Err_assign_copy. unfold_Mem. rewrite Ha. simpl.
  rewrite lookup_insert_eq. simpl.
  destruct (decide (other = this)) as [->|Hne].
  - rewrite lookup_insert_eq. simpl. unfold Str.str_push.
    rewrite chars_str_clear. unfold Str.str_clear at 1 2. simpl.
    destruct (Str.ptr (msg a)); simpl; rewrite insert_insert_eq; reflexivity.
  - rewrite lookup_insert_ne by congruence. rewrite Hb. simpl.
    unfold Str.str_push. rewrite chars_str_clear. unfold Str.str_clear. simpl.
    destruct (Str.ptr (msg a)); simpl; rewrite insert_insert_eq; reflexivity.
Qed.

Lemma Err_dtor_at_run (m : Mem) (this : nat) (a : Err) :
  objs m !! this = Some a → Str.valid (bufs m) (msg a) →
  Err_dtor_at this m =
  Ret (tt, {| objs := delete this (objs m);
              bufs := match Str.ptr (msg a) with
                      | Some l => delete l (bufs m)
                      | None => bufs m
                      end |}).
Proof.
  intros Ha Hv. unfold Err_dtor_at, Err_dtor. unfold_Mem. rewrite Ha. simpl.
  rewrite (str_free_run _ _ Hv). reflexivity.
Qed.

(** *** No buffer is lost *)

Lemma Mem_tight_write (m : Mem) (this l : nat) (buf : list ascii) (s : Str.t) :
  Mem_tight m →
  (∀ a la, objs m !! this = Some a → Str.ptr (msg a) = Some la → la = l) →
  Str.ptr s = Some l →
  Mem_tight {| objs := <[this := {| msg := s |}]> (objs m);
               bufs := <[l := buf]> (bufs m) |}.
Proof.
  intros Htight Hthis Hp l' Hl'. simpl in *.
  destruct (decide (l' = l)) as [->|Hne].
  - exists this, {| msg := s |}. split; [apply lookup_insert_eq | exact Hp].
  - rewrite lookup_insert_ne in Hl' by congruence.
    destruct (Htight _ Hl') as (i & a & Hi & Ha).
    destruct (decide (i = this)) as [->|Hi'].
    + destruct Hne. exact (Hthis _ _ Hi Ha).
    + exists i, a. split; [| exact Ha]. rewrite lookup_insert_ne by congruence. exact Hi.
Qed.

Lemma Mem_tight_hand_over (m : Mem) (this other : nat) (b : Err) (h' : Str.heap) :
  Mem_tight m → objs m !! other = Some b →
  (∀ l, is_Some (h' !! l) →
        is_Some (bufs m !! l) ∧
        ∀ a, objs m !! this = Some a → Str.ptr (msg a) ≠ Some l) →
  Mem_tight {| objs := <[other := {| msg := Str.str_new |}]>
                         (<[this := {| msg := msg b |}]> (objs m));
               bufs := h' |}.
Proof.
  intros Htight Hb Hh l Hl. simpl in *.
  destruct (Hh _ Hl) as [Hold Hnot].
  destruct (Htight _ Hold) as (i & a & Hi & Ha).
  destruct (decide (i = this)) as [->|Hit]; [destruct (Hnot _ Hi Ha) |].
  destruct (decide (i = other)) as [->|Hio].
  - exists this, {| msg := msg b |}. split.
    + rewrite lookup_insert_ne by congruence. apply lookup_insert_eq.
    + simpl. congruence.
  - exists i, a. split; [| exact Ha]. rewrite !lookup_insert_ne by congruence. exact Hi.
Qed.

Lemma Mem_tight_delete (m : Mem) (this : nat) (a : Err) :
  Mem_tight m → objs m !! this = Some a →
  Mem_tight {| objs := delete this (objs m);
               bufs := match Str.ptr (msg a) with
                       | Some l => delete l (bufs m)
                       | None => bufs m
                       end |}.
Proof.
  intros Htight Ha l Hl. simpl in *.
  assert (Hold : is_Some (bufs m !! l) ∧ Str.ptr (msg a) ≠ Some l).
  { destruct (Str.ptr (msg a)) as [la|]; [| split; [exact Hl | discriminate]].
    destruct (decide (la = l)) as [->|Hne].
    - rewrite lookup_delete_eq in Hl. destruct Hl as [x Hx]. discriminate Hx.
    - rewrite lookup_delete_ne in Hl by exact Hne. split; [exact Hl | congruence]. }
  destruct Hold as [Hold Hnot].
  destruct (Htight _ Hold) as (i & c & Hi & Hc).
  exists i, c. split; [| exact Hc].
  rewrite lookup_delete_ne; [exact Hi |]. intros <-. congruence.
Qed.

(** An object without a buffer can be placed anywhere. *)
Lemma Mem_wf_insert_empty (m : Mem) (this : nat) :
  Mem_wf m →
  Mem_wf {| objs := <[this := {| msg := Str.str_new |}]> (objs m); bufs := bufs m |}.
Proof.
  intros [Hvalid Hown]. split; simpl.
  - intros i a Hi. destruct (decide (i = this)) as [->|Hne].
    + rewrite lookup_insert_eq in Hi. inversion Hi. apply valid_str_new.
    + rewrite lookup_insert_ne in Hi by congruence. exact (Hvalid _ _ Hi).
  - intros i j a b l Hi Hj Ha Hb.
    destruct (decide (i = this)) as [->|Hi'].
    { rewrite lookup_insert_eq in Hi. inversion Hi; subst a. discriminate Ha. }
    destruct (decide (j = this)) as [->|Hj'].
    { rewrite lookup_insert_eq in Hj. inversion Hj; subst b. discriminate Hb. }
    rewrite lookup_insert_ne in Hi by congruence.
    rewrite lookup_insert_ne in Hj by congruence.
    exact (Hown _ _ _ _ _ Hi Hj Ha Hb).
Qed.

(** The buffers left by a release are buffers that were live, and not the
    one released. *)
Lemma live_after_free (h : Str.heap) (s : Str.t) (l : nat) :
  is_Some (match Str.ptr s with Some la => delete la h | None => h end !! l) →
  is_Some (h !! l) ∧ Str.ptr s ≠ Some l.
Proof.
  destruct (Str.ptr s) as [la|]; [| intros H; split; [exact H | discriminate]].
  destruct (decide (la = l)) as [->|Hne].
  - rewrite lookup_delete_eq. intros [x Hx]. discriminate Hx.
  - rewrite lookup_delete_ne by exact Hne. intros H. split; [exact H | congruence].
Qed.

Section Program_facts.

Context {Fmt Args : Type}.
Variable render : Fmt → Args → list ascii.

(** One step of a program keeps the ownership discipline and loses no
    buffer. *)
Lemma run_op_keeps (o : op) (m : Mem) :
  Mem_wf m → Mem_tight m → op_ok m o →
  ∃ m', run_op render o m = Ret (tt, m') ∧ Mem_wf m' ∧ Mem_tight m'.
Proof.
  intros Hwf Htight Hok. pose proof Hwf as [Hvalid Hown].
  destruct o as [this|this fmt args|this other|this other|this other|this other|this];
    simpl in Hok |- *.
  - (* Err() *)
    eexists. split; [reflexivity |]. split; [exact (Mem_wf_insert_empty _ _ Hwf) |].
    intros l Hl. simpl in *. destruct (Htight _ Hl) as (i & a & Hi & Ha).
    exists i, a. split; [| exact Ha].
    rewrite lookup_insert_ne; [exact Hi |]. intros <-. congruence.
  - (* Err(fmt, args...) *)
    eexists. split; [reflexivity |]. simpl. split.
    + apply Mem_wf_write; [exact Hwf | | reflexivity | reflexivity].
      intros j b Hj _. exact (Mem_wf_not_live _ _ _ _ Hwf (fresh_not_live _) Hj).
    + apply Mem_tight_write; [exact Htight | | reflexivity].
      intros a la Ha. congruence.
  - (* Err(const Err&) *)
    destruct Hok as [Hthis [b Hb]].
    eexists. split; [exact (Err_copy_at_run _ _ _ _ Hb) |]. split.
    + apply Mem_wf_write; [exact Hwf | | reflexivity | reflexivity].
      intros j c Hj _. exact (Mem_wf_not_live _ _ _ _ Hwf (fresh_not_live _) Hj).
    + apply Mem_tight_write; [exact Htight | | reflexivity].
      intros a la Ha. congruence.
  - (* Err(Err&&) *)
    destruct Hok as [Hthis [b Hb]].
    eexists. split; [exact (Err_move_at_run _ _ _ _ Hb) |]. split.
    + apply Mem_wf_hand_over; [exact Hwf | exact Hb |].
      intros j c Hj _. exact (Hvalid _ _ Hj).
    + apply Mem_tight_hand_over; [exact Htight | exact Hb |].
      intros l Hl. split; [exact Hl |]. intros a Ha. congruence.
  - (* operator=(const Err&) *)
    destruct Hok as [[a Ha] [b Hb]].
    eexists. split; [exact (Err_assign_copy_run _ _ _ _ _ Ha Hb) |]. split.
    + apply Mem_wf_write; [exact Hwf | | reflexivity | reflexivity].
      intros j c Hj Hne Hc. destruct (Str.ptr (msg a)) as [l|] eqn:Hp.
      * exact (Hne (Hown _ _ _ _ _ Hj Ha Hc Hp)).
      * exact (Mem_wf_not_live _ _ _ _ Hwf (fresh_not_live _) Hj Hc).
    + apply Mem_tight_write; [exact Htight | | reflexivity].
      intros a' la Ha' Hla. rewrite Ha in Ha'. inversion Ha'; subst a'.
      rewrite Hla. reflexivity.
  - (* operator=(Err&&) *)
    destruct Hok as [[a Ha] [b Hb]].
    pose proof (str_free_run _ _ (Hvalid _ _ Ha)) as Hfree.
    eexists. split; [exact (Err_assign_move_run _ _ _ _ _ _ Ha Hb Hfree) |]. split.
    + apply Mem_wf_hand_over; [exact Hwf | exact Hb |].
      intros j c Hj Hne. destruct (Str.ptr (msg a)) as [l|] eqn:Hp; [| exact (Hvalid _ _ Hj)].
      apply valid_delete_other; [| exact (Hvalid _ _ Hj)].
      intros Hc. exact (Hne (Hown _ _ _ _ _ Hj Ha Hc Hp)).
    + apply Mem_tight_hand_over; [exact Htight | exact Hb |].
      intros l Hl. apply live_after_free in Hl as [Hl Hne].
      split; [exact Hl |]. intros a' Ha'. congruence.
  - (* ~Err() *)
    destruct Hok as [a Ha].
    eexists. split; [exact (Err_dtor_at_run _ _ _ Ha (Hvalid _ _ Ha)) |]. split.
    + split; simpl.
      * intros i c Hi. apply lookup_delete_Some in Hi as [Hne Hi].
        destruct (Str.ptr (msg a)) as [l|] eqn:Hp; [| exact (Hvalid _ _ Hi)].
        apply valid_delete_other; [| exact (Hvalid _ _ Hi)].
        intros Hc. exact (Hne (Hown _ _ _ _ _ Ha Hi Hp Hc)).
      * intros i j c d l Hi Hj. apply lookup_delete_Some in Hi as [_ Hi].
        apply lookup_delete_Some in Hj as [_ Hj]. exact (Hown _ _ _ _ _ Hi Hj).
    + exact (Mem_tight_delete _ _ _ Htight Ha).
Qed.

End Program_facts.

(** ** Round trips through a whole construction *)



(** The whole of [Result<T, Err> r(x)], step by step: the parameter is a
    copy in the buffer [l1], the payload a copy of it in [l2], and [l1] is
    released when the constructor returns. *)
Lemma Result_error_call_run {T : Type} (x : Err) (w : world Str.heap) :
  let h := user w in
  let cx := Err_chars h x in
  let l1 := fresh (dom h) in
  let l2 := fresh (dom (<[l1 := cx]> h)) in
  l2 ≠ l1 ∧
  Result_error_call (T := T) Err_copy Err_dtor x w =
  Ret ({| _buffer := Holds_E {| msg := {| Str.ptr := Some l2; Str.count := length cx |} |};
          state := STATE_ERROR |},
       {| user := delete l1 (<[l2 := cx]> (<[l1 := cx]> h));
          calls := ((calls w ++ [call_E_copy]) ++ [call_E_copy]) ++ [call_E_dtor] |}).
Proof.
  intros h cx l1 l2.
  assert (Hl1 : <[l1 := cx]> h !! l1 = Some cx) by apply lookup_insert_eq.
  assert (Hne : l2 ≠ l1).
  { intros Heq. pose proof (fresh_not_live (<[l1 := cx]> h)) as Hf. fold l2 in Hf.
    rewrite Heq, Hl1 in Hf. discriminate Hf. }
  split; [exact Hne |].
  unfold Result_error_call, Result_error, Err_copy, Err_dtor.
  unfold Str.clone, Str.str_free. unfold_M. simpl.
  fold h. unfold Err_chars in cx. fold cx l1.
  rewrite (chars_insert_same h l1 cx). fold l2.
  rewrite decide_True; [reflexivity |].
  rewrite lookup_insert_ne by exact Hne. rewrite Hl1. eauto.
Qed.

(** C4. Building a [Result<T, Err>] from an error [x] whose message is not
    empty: once the constructor has returned and its by-value parameter has
    been destroyed, [error()] (const or not) gives a payload that owns a
    live buffer and whose message is the message [x] had; [has_error()] is
    true and [has_value()] false, and a valid [x] keeps its message. *)
Theorem Result_error_call_roundtrip (T : Type) (x : Err) (w : world Str.heap) :
  Err_bool x = true →
  ∃ (r : Result T Err) (w' : world Str.heap) (p : Err),
    Result_error_call Err_copy Err_dtor x w = Ret (r, w') ∧
    error r = Ret p ∧ error_const r = Ret p ∧
    has_error r = true ∧ has_value r = false ∧
    Str.valid (user w') (msg p) ∧
    Err_chars (user w') p = Err_chars (user w) x ∧
    (Str.valid (user w) (msg x) → Err_chars (user w') x = Err_chars (user w) x).
Proof.
  intros _.
  destruct (Result_error_call_run (T := T) x w) as [Hne Hrun]. cbv zeta in Hne, Hrun.
  set (h := user w) in *. set (cx := Err_chars h x) in *.
  set (l1 := fresh (dom h)) in *. set (l2 := fresh (dom (<[l1 := cx]> h))) in *.
  eexists _, _, _. split; [exact Hrun |].
  split; [reflexivity |]. split; [reflexivity |].
  split; [reflexivity |]. split; [reflexivity |]. simpl.
  split; [| split].
  - unfold Str.valid. simpl. exists cx.
    rewrite lookup_delete_ne by congruence. rewrite lookup_insert_eq.
    split; reflexivity.
  - unfold Err_chars at 1. rewrite chars_delete_other by (simpl; congruence).
    apply chars_insert_same.
  - intros Hv.
    assert (Hl1 : h !! l1 = None) by apply fresh_not_live.
    assert (Hl2 : <[l1 := cx]> h !! l2 = None) by apply fresh_not_live.
    assert (Hx1 : Str.ptr (msg x) ≠ Some l1).
    { intros Hp. destruct (valid_live _ _ _ Hv Hp) as [y Hy]. congruence. }
    assert (Hx2 : Str.ptr (msg x) ≠ Some l2).
    { intros Hp. destruct (valid_live _ _ _ Hv Hp) as [y Hy].
      assert (l2 ≠ l1) by exact Hne.
      rewrite lookup_insert_ne in Hl2 by congruence. congruence. }
    unfold Err_chars.
    rewrite chars_delete_other by exact Hx1.
    rewrite chars_insert_other by exact Hx2.
    apply chars_insert_other. exact Hx1.
Qed.

(** ** The compile-time check *)

(** The check looks at [T] only, and rejects exactly [T = Err]. *)
Lemma Result_static_assert_spec (T E : cpp_type) :
  Result_static_assert T E = false ↔ T = Err_type.
Proof.
  unfold Result_static_assert, is_same_v. rewrite negb_false_iff.
  rewrite String.eqb_eq. split; intros H; symmetry; exact H.
Qed.

Lemma Result_static_assert_ignores_E (T E E' : cpp_type) :
  Result_static_assert T E = Result_static_assert T E'.
Proof. reflexivity. Qed.

(** C5 (the header does not do this). The value type and the error type of
    a [Result] are meant to differ, and the check of line 70 to reject
    [Result<T, E>] when they do not.  The check compares [T] with [Err],
    not with [E]: [Result<int, int>] is accepted, and so is
    [Result<Str, Str>], while [Result<Err, int>], whose two types differ,
    is rejected. *)
Theorem Result_static_assert_accepts_same :
  Result_static_assert int_type int_type = true ∧
  Result_static_assert Str_type Str_type = true ∧
  Result_static_assert Err_type int_type = false ∧
  Result_static_assert Err_type Err_type = false.
Proof. repeat split. Qed.

(** ** The properties on Result<int, Err> *)

Lemma Result_ctor_exactly_one_witness :
  (∃ (r : IntErr.R) w',
      IntErr.of_error Sample.not_found_err Sample.world1 = Ret (r, w') ∧
      has_error r = true ∧ has_value r = false ∧
      xorb (has_error r) (has_value r) = true) ∧
  (∃ (r : IntErr.R) w',
      IntErr.of_value 42%Z IntErr.start = Ret (r, w') ∧
      has_value r = true ∧ has_error r = false ∧
      xorb (has_error r) (has_value r) = true).
Proof.
  split.
  - eexists _, _. split; [vm_compute; reflexivity |].
    eapply (proj1 (Result_ctor_exactly_one (T := Z) Err_copy IntErr.int_ctor)
              Sample.not_found_err Sample.world1).
    vm_compute. reflexivity.
  - eexists _, _. split; [vm_compute; reflexivity |].
    eapply (proj2 (Result_ctor_exactly_one (E := Err) Err_copy IntErr.int_ctor)
              42%Z IntErr.start).
    vm_compute. reflexivity.
Defined.

Lemma Result_accessor_contract_witness :
  value Sample.failed = AssertFail ∧
  (∃ e, _buffer Sample.failed = Holds_E e ∧
        error Sample.failed = Ret e ∧ error_const Sample.failed = Ret e).
Proof.
  pose proof (Result_accessor_contract (T := Z) (E := Err)) as (Hv & _ & _ & He).
  split.
  - apply Hv.
  - apply (He Sample.failed); reflexivity.
Defined.


Lemma Result_error_call_roundtrip_witness :
  ∃ (r : IntErr.R) w' p,
    Result_error_call Err_copy Err_dtor Sample.not_found_err Sample.world1
      = Ret (r, w') ∧
    error r = Ret p ∧ error_const r = Ret p ∧
    has_error r = true ∧ has_value r = false ∧
    Str.valid (user w') (msg p) ∧
    Err_chars (user w') p = list_ascii_of_string "file a.txt not found" ∧
    Err_chars (user w') Sample.not_found_err
      = list_ascii_of_string "file a.txt not found".
Proof.
  destruct (Result_error_call_roundtrip Z Sample.not_found_err Sample.world1 eq_refl)
    as (r & w' & p & Hrun & He & Hec & Hhe & Hhv & Hvalid & Hmsg & Hx).
  exists r, w', p.
  split; [exact Hrun |]. split; [exact He |]. split; [exact Hec |].
  split; [exact Hhe |]. split; [exact Hhv |]. split; [exact Hvalid |].
  split; [exact Hmsg |]. rewrite Hx; [reflexivity |].
  exists (list_ascii_of_string "file a.txt not found").
  split; [reflexivity | simpl; lia].
Defined.

Lemma Result_dtor_selects_witness :
  ∃ w', IntErr.dtor Sample.failed Sample.world1 = Ret (tt, w') ∧
        calls w' = [call_E_dtor].
Proof.
  pose proof (Result_dtor_selects Err_dtor IntErr.int_dtor Sample.world1)
    as (_ & _ & _ & Hcalls).
  eexists. split; [vm_compute; reflexivity |].
  apply (Hcalls Sample.failed); [reflexivity | vm_compute; reflexivity].
Defined.

Lemma Err_move_empties_source_witness :
  (∃ m', Err_move_at 2 1 Sample.mem2 = Ret (tt, m') ∧
         truthy m' 1 = Some false ∧ message m' 1 = Some [] ∧
         message m' 2 = Some (list_ascii_of_string "YZ")) ∧
  (∃ m', Err_assign_move 0 1 Sample.mem2 = Ret (tt, m') ∧
         truthy m' 1 = Some false ∧ message m' 1 = Some [] ∧
         message m' 0 = Some (list_ascii_of_string "YZ")).
Proof.
  destruct (Err_move_empties_source Sample.mem2 2 1 Sample.err_b eq_refl)
    as [Hctor _].
  destruct (Err_move_empties_source Sample.mem2 0 1 Sample.err_b eq_refl)
    as [_ Hassign].
  split.
  - apply Hctor. reflexivity.
  - destruct (Hassign Sample.err_a eq_refl) as (m' & Hrun & Ht & Hm & Hthis).
    + exists (list_ascii_of_string "X"). split; [reflexivity | simpl; lia].
    + exists m'. repeat split; try assumption.
      apply Hthis; [lia | intros l Hl; inversion Hl; discriminate].
Defined.

(** Destroying both the destination and the source of a moved
    [Result<int, Err>] releases the buffer of the one payload twice. *)
Example Result_moved_from_destroyed_twice :
  (r <- IntErr.of_error Sample.not_found_err ;;
   let '(this, other') := Result_move r in
   IntErr.dtor this ;; IntErr.dtor other') Sample.world1 = Undefined.
Proof. vm_compute. reflexivity. Qed.

(** The examples of the specification. *)
Example Result_success_example :
  ∃ r w', IntErr.of_value 42%Z IntErr.start = Ret (r, w') ∧
          has_value r = true ∧ value r = Ret 42%Z ∧ has_error r = false.
Proof. eexists _, _. repeat split. Qed.

Example Result_failure_example :
  ∃ e h r w' p,
    Sample.not_found ∅ = Ret (e, h) ∧
    IntErr.of_error e {| user := h; calls := [] |} = Ret (r, w') ∧
    has_error r = true ∧ has_value r = false ∧ error r = Ret p ∧
    Err_chars (user w') p = list_ascii_of_string "file a.txt not found".
Proof.
  eexists _, _, _, _, _.
  split; [vm_compute; reflexivity |].
  split; [vm_compute; reflexivity |].
  repeat split.
Qed.

(* ===================================================================== *)
(** * Part 7: further properties of the header *)
(* ===================================================================== *)

(** ** Helpers *)

Lemma Mem_tight_empty : Mem_tight Mem_empty.
Proof. intros l [x Hx]. simpl in Hx. rewrite lookup_empty in Hx. discriminate Hx. Qed.

(** A write to the buffer [l] of the object at [this] leaves the message of
    every other object that does not hold [l]. *)
Lemma message_write_other (m : Mem) (this l k : nat) (buf : list ascii) (s : Str.t) :
  k ≠ this →
  (∀ x, objs m !! k = Some x → Str.ptr (msg x) ≠ Some l) →
  message {| objs := <[this := {| msg := s |}]> (objs m);
             bufs := <[l := buf]> (bufs m) |} k
  = message m k.
Proof.
  intros Hne Hk. unfold message. simpl. rewrite lookup_insert_ne by congruence.
  destruct (objs m !! k) as [x|] eqn:Hx; [| reflexivity]. simpl. f_equal.
  apply chars_insert_other. exact (Hk x eq_refl).
Qed.

(** A release of the buffer of [a] leaves the message of every object that
    does not hold that buffer. *)
Lemma chars_after_free (h : Str.heap) (s x : Str.t) :
  (∀ l, Str.ptr s = Some l → Str.ptr x ≠ Some l) →
  Str.chars (match Str.ptr s with Some l => delete l h | None => h end) x
  = Str.chars h x.
Proof.
  intros Hx. destruct (Str.ptr s) as [l|]; [| reflexivity].
  apply chars_delete_other. exact (Hx l eq_refl).
Qed.

Section Programs_run.

Context {Fmt Args : Type}.
Variable render : Fmt → Args → list ascii.

(** A well-addressed program keeps the ownership discipline and loses no
    buffer, from any memory that has both. *)
Lemma run_ops_keeps (ops : list op) (m : Mem) :
  Mem_wf m → Mem_tight m → well_addressed render ops m →
  ∃ m', run_ops render ops m = Ret (tt, m') ∧ Mem_wf m' ∧ Mem_tight m'.
Proof.
  revert m. induction ops as [|o rest IH]; intros m Hwf Htight Hwa.
  - exists m. split; [reflexivity | split; assumption].
  - destruct Hwa as [Hok Hrest].
    destruct (run_op_keeps render o m Hwf Htight Hok) as (m1 & Hrun & Hwf1 & Htight1).
    rewrite Hrun in Hrest.
    destruct (IH m1 Hwf1 Htight1 Hrest) as (m' & Hrun' & Hwf' & Htight').
    exists m'. split; [| split; assumption].
    simpl. unfold M_bind. rewrite Hrun. exact Hrun'.
Qed.

End Programs_run.

Lemma Sample_mem2_wf : Mem_wf Sample.mem2.
Proof.
  destruct (run_ops_keeps plain [op_fmt 0 "X"%string tt; op_fmt 1 "YZ"%string tt]
              Mem_empty Mem_wf_empty Mem_tight_empty) as (m' & Hrun & Hwf & _).
  - simpl. split; [reflexivity |]. split; [reflexivity | exact I].
  - vm_compute in Hrun. inversion Hrun; subst m'. exact Hwf.
Qed.

(** ** The constructors of Err *)

(** X1. A default-constructed [Err] has the empty message and coerces to
    false.  An [Err] built from a format holds exactly the rendered text,
    in a buffer of its own that disturbs no string already there, and
    coerces to true exactly when that text is not empty. *)
Theorem Err_ctor_message {Fmt Args} (render : Fmt → Args → list ascii)
    (fmt : Fmt) (args : Args) (h : Str.heap) :
  (Err_bool Err_default = false ∧ Err_chars h Err_default = []) ∧
  ∃ e h', Err_fmt render fmt args h = Ret (e, h') ∧
          Err_chars h' e = render fmt args ∧
          (Err_bool e = true ↔ render fmt args ≠ []) ∧
          Str.valid h' (msg e) ∧
          ∀ x, Str.valid h x → Str.chars h' x = Str.chars h x.
Proof.
  split; [split; reflexivity |].
  eexists _, _. split; [reflexivity |]. simpl.
  split; [apply chars_insert_same |]. split; [| split].
  - unfold Err_bool. simpl. destruct (render fmt args); simpl; split;
      congruence.
  - unfold Str.valid. simpl. eexists. split; [apply lookup_insert_eq | reflexivity].
  - intros x Hx. apply chars_insert_fresh; [apply fresh_not_live | exact Hx].
Qed.

(** X2. Comparing an [Err] with a boolean compares its boolean coercion:
    [e == v] holds exactly when the coercion is [v], [e != v] exactly when
    it is not, so [e == true], [e != false] and the coercion agree. *)
Theorem Err_compare_bool (e : Err) (v : bool) :
  (Err_eq e v = true ↔ Err_bool e = v) ∧
  (Err_ne e v = true ↔ Err_bool e ≠ v) ∧
  Err_eq e v = Err_ne e (negb v) ∧
  Err_eq e true = Err_bool e ∧ Err_ne e false = Err_bool e.
Proof.
  unfold Err_ne, Err_eq, Err_bool.
  destruct (Str.count (msg e) =? 0), v; simpl; repeat split; congruence.
Qed.

(** X3. The copy constructor gives the new object the message of the
    original in a buffer of its own: no other object's message changes, the
    two handles differ, and the ownership discipline is kept. *)
Theorem Err_copy_independent (m : Mem) (this other : nat) (b : Err) :
  Mem_wf m → objs m !! this = None → objs m !! other = Some b →
  ∃ m' c, Err_copy_at this other m = Ret (tt, m') ∧
          objs m' !! this = Some c ∧
          message m' this = Some (Err_chars (bufs m) b) ∧
          (∀ k, k ≠ this → message m' k = message m k) ∧
          Str.ptr (msg c) ≠ Str.ptr (msg b) ∧
          Mem_wf m'.
Proof.
  intros Hwf Hthis Hb.
  eexists _, _. split; [exact (Err_copy_at_run _ _ _ _ Hb) |].
  split; [apply lookup_insert_eq |]. split; [| split; [| split]].
  - rewrite message_set. f_equal. apply chars_insert_same.
  - intros k Hk. apply message_write_other; [exact Hk |].
    intros x Hx. exact (Mem_wf_not_live _ _ _ _ Hwf (fresh_not_live _) Hx).
  - simpl. intros Heq. symmetry in Heq.
    exact (Mem_wf_not_live _ _ _ _ Hwf (fresh_not_live _) Hb Heq).
  - apply Mem_wf_write; [exact Hwf | | reflexivity | reflexivity].
    intros j c Hj _. exact (Mem_wf_not_live _ _ _ _ Hwf (fresh_not_live _) Hj).
Qed.

(** X4. Copying an [Err] and destroying the copy gives back the memory as
    it was: the destructor of the copy releases the buffer the copy
    constructor allocated, and nothing else. *)
Theorem Err_copy_then_destroy (m : Mem) (this other : nat) (b : Err) :
  objs m !! this = None → objs m !! other = Some b →
  (Err_copy_at this other ;; Err_dtor_at this) m = Ret (tt, m).
Proof.
  intros Hthis Hb. unfold M_bind. rewrite (Err_copy_at_run _ _ _ _ Hb).
  rewrite (Err_dtor_at_run _ this
             {| msg := {| Str.ptr := Some (fresh (dom (bufs m)));
                          Str.count := length (Err_chars (bufs m) b) |} |}).
  - simpl. rewrite (delete_insert_id _ _ _ Hthis).
    rewrite (delete_insert_id _ _ _ (fresh_not_live _)).
    destruct m; reflexivity.
  - apply lookup_insert_eq.
  - unfold Str.valid. simpl. eexists. split; [apply lookup_insert_eq | reflexivity].
Qed.

(** ** The assignments and the destructor of Err *)

(** Under the ownership discipline no other object holds the buffer a copy
    assignment writes. *)
Lemma assign_buffer_private (m : Mem) (this j : nat) (a c : Err) :
  Mem_wf m → objs m !! this = Some a → objs m !! j = Some c → j ≠ this →
  Str.ptr (msg c) ≠
  Some (match Str.ptr (msg a) with
        | Some l => l
        | None => fresh (dom (bufs m))
        end).
Proof.
  intros Hwf Ha Hj Hne Hc. destruct (Str.ptr (msg a)) as [l|] eqn:Hp.
  - destruct Hwf as [_ Hown]. exact (Hne (Hown _ _ _ _ _ Hj Ha Hc Hp)).
  - exact (Mem_wf_not_live _ _ _ _ Hwf (fresh_not_live _) Hj Hc).
Qed.

(** X5. Copy assignment between two distinct objects replaces the message
    of the destination by that of the source, so the destination coerces
    to the boolean the source coerces to; the message of every other
    object, the source among them, is unchanged, and the ownership
    discipline is kept. *)
Theorem Err_assign_copy_replaces (m : Mem) (this other : nat) (a b : Err) :
  Mem_wf m → objs m !! this = Some a → objs m !! other = Some b →
  this ≠ other →
  ∃ m', Err_assign_copy this other m = Ret (tt, m') ∧
        message m' this = Some (Err_chars (bufs m) b) ∧
        truthy m' this = Some (Err_bool b) ∧
        (∀ k, k ≠ this → message m' k = message m k) ∧
        Mem_wf m'.
Proof.
  intros Hwf Ha Hb Hne.
  pose proof (Err_assign_copy_run _ _ _ _ _ Ha Hb) as Hrun. cbv zeta in Hrun.
  rewrite decide_False in Hrun by congruence.
  eexists. split; [exact Hrun |]. split; [| split; [| split]].
  - rewrite message_set. f_equal. apply chars_insert_same.
  - rewrite truthy_set. simpl. unfold Err_bool, Err_chars.
    destruct Hwf as [Hvalid _]. rewrite (chars_length _ _ (Hvalid _ _ Hb)).
    reflexivity.
  - intros k Hk. apply message_write_other; [exact Hk |].
    intros x Hx. exact (assign_buffer_private _ _ _ _ _ Hwf Ha Hx Hk).
  - apply Mem_wf_write; [exact Hwf | | reflexivity | reflexivity].
    intros j c Hj Hj'. exact (assign_buffer_private _ _ _ _ _ Hwf Ha Hj Hj').
Qed.

(** X6. Move assignment of an object to itself leaves it with the empty
    message and coercing to false; its buffer has been released, no other
    object's message changes, and the ownership discipline is kept. *)
Theorem Err_self_move_assign_empties (m : Mem) (this : nat) (a : Err) :
  Mem_wf m → objs m !! this = Some a →
  ∃ m', Err_assign_move this this m = Ret (tt, m') ∧
        message m' this = Some [] ∧ truthy m' this = Some false ∧
        (∀ l, Str.ptr (msg a) = Some l → bufs m' !! l = None) ∧
        (∀ k, k ≠ this → message m' k = message m k) ∧
        Mem_wf m'.
Proof.
  intros Hwf Ha. pose proof Hwf as [Hvalid Hown].
  pose proof (str_free_run _ _ (Hvalid _ _ Ha)) as Hfree.
  pose proof (Err_assign_move_run _ _ _ _ _ _ Ha Ha Hfree) as Hrun.
  eexists. split; [exact Hrun |].
  rewrite message_set, truthy_set.
  split; [reflexivity |]. split; [reflexivity |]. split; [| split].
  - intros l Hl. simpl. rewrite Hl. apply lookup_delete_eq.
  - intros k Hk. unfold message. simpl. rewrite !lookup_insert_ne by congruence.
    destruct (objs m !! k) as [x|] eqn:Hx; [| reflexivity]. simpl. f_equal.
    apply chars_after_free. intros l Hl Hxl.
    exact (Hk (Hown _ _ _ _ _ Hx Ha Hxl Hl)).
  - destruct (Err_assign_move_wf _ _ _ _ _ Hwf Ha Ha) as [(m'' & Hrun'' & Hwf'') _].
    rewrite Hrun in Hrun''. inversion Hrun''; subst m''. exact Hwf''.
Qed.

(** X7. The destructor ends the object, releases its buffer, leaves the
    message of every other object, and keeps the ownership discipline. *)
Theorem Err_dtor_releases (m : Mem) (this : nat) (a : Err) :
  Mem_wf m → objs m !! this = Some a →
  ∃ m', Err_dtor_at this m = Ret (tt, m') ∧
        objs m' !! this = None ∧
        (∀ l, Str.ptr (msg a) = Some l → bufs m' !! l = None) ∧
        (∀ k, k ≠ this → message m' k = message m k) ∧
        Mem_wf m'.
Proof.
  intros Hwf Ha. pose proof Hwf as [Hvalid Hown].
  pose proof (Err_dtor_at_run _ _ _ Ha (Hvalid _ _ Ha)) as Hrun.
  eexists. split; [exact Hrun |]. split; [apply lookup_delete_eq |].
  split; [| split].
  - intros l Hl. simpl. rewrite Hl. apply lookup_delete_eq.
  - intros k Hk. unfold message. simpl. rewrite lookup_delete_ne by congruence.
    destruct (objs m !! k) as [x|] eqn:Hx; [| reflexivity]. simpl. f_equal.
    apply chars_after_free. intros l Hl Hxl.
    exact (Hk (Hown _ _ _ _ _ Hx Ha Hxl Hl)).
  - destruct (Err_dtor_at_wf _ _ _ Hwf Ha) as (m'' & Hrun'' & Hwf'' & _).
    rewrite Hrun in Hrun''. inversion Hrun''; subst m''. exact Hwf''.
Qed.

(** X8. A program of [Err] operations that starts with no object, builds
    objects only where there is none and names only living objects never
    meets undefined behaviour: it returns, every handle is valid, no two
    objects hold one buffer and every live buffer is held by an object, so
    once the last object is destroyed no buffer is left. *)
Theorem Err_program_safe {Fmt Args} (render : Fmt → Args → list ascii)
    (ops : list op) :
  well_addressed render ops Mem_empty →
  ∃ m', run_ops render ops Mem_empty = Ret (tt, m') ∧
        Mem_wf m' ∧ Mem_tight m' ∧
        (objs m' = ∅ → bufs m' = ∅).
Proof.
  intros Hwa.
  destruct (run_ops_keeps render ops Mem_empty Mem_wf_empty Mem_tight_empty Hwa)
    as (m' & Hrun & Hwf & Htight).
  exists m'. split; [exact Hrun |]. split; [exact Hwf |]. split; [exact Htight |].
  intros Hnone. apply map_empty. intros l.
  destruct (bufs m' !! l) as [buf|] eqn:Hl; [| reflexivity].
  destruct (Htight l) as (i & a & Hi & _); [eauto |].
  rewrite Hnone, lookup_empty in Hi. discriminate Hi.
Qed.

(** X9. A moved-from [Err] is safe to destroy: move-constructing a new
    object from [other] and then destroying both comes to destroying
    [other] alone, so its buffer is released exactly once. *)
Theorem Err_move_then_destroy_both (m : Mem) (this other : nat) (b : Err) :
  objs m !! this = None → objs m !! other = Some b →
  Str.valid (bufs m) (msg b) →
  (Err_move_at this other ;; Err_dtor_at other ;; Err_dtor_at this) m
  = Err_dtor_at other m.
Proof.
  intros Hthis Hb Hv.
  assert (Hne : this ≠ other) by congruence.
  unfold M_bind. rewrite (Err_move_at_run _ _ _ _ Hb).
  rewrite (Err_dtor_at_run _ other {| msg := Str.str_new |});
    [| apply lookup_insert_eq | apply valid_str_new].
  simpl.
  rewrite (Err_dtor_at_run _ this {| msg := msg b |}); simpl.
  - rewrite (Err_dtor_at_run _ _ _ Hb Hv). do 3 f_equal.
    rewrite delete_insert_eq, delete_delete.
    rewrite (delete_insert_id _ _ _ Hthis). reflexivity.
  - rewrite lookup_delete_ne by congruence.
    rewrite lookup_insert_ne by congruence. apply lookup_insert_eq.
  - exact Hv.
Qed.

(** ** Result and its payload *)

(** X10. In every state at most one of [has_error()] and [has_value()] is
    true, and both are false exactly in the state EMPTY; there both
    accessors end in the assertion, and in no state do [value()] and
    [error()] both pass theirs. *)
Theorem Result_state_queries {T E} (r : Result T E) :
  has_error r && has_value r = false ∧
  (has_error r = false ∧ has_value r = false ↔ state r = STATE_EMPTY) ∧
  (state r = STATE_EMPTY →
   value r = AssertFail ∧ error r = AssertFail ∧ error_const r = AssertFail) ∧
  (value r = AssertFail ∨ error r = AssertFail).
Proof.
  destruct r as [b s]. destruct s; simpl.
  - repeat split. left. reflexivity.
  - split; [reflexivity |]. split; [split; [intros [H _]; discriminate H | discriminate] |].
    split; [discriminate |]. left. reflexivity.
  - split; [reflexivity |]. split; [split; [intros [_ H]; discriminate H | discriminate] |].
    split; [discriminate |]. right. reflexivity.
Qed.

Lemma pow2_divide (a b : N) : (a ≤ b)%N → (2 ^ a | 2 ^ b)%N.
Proof.
  intros Hle. exists (2 ^ (b - a))%N.
  rewrite <- N.pow_add_r. f_equal. lia.
Qed.

(** X11. The buffer of a [Result] fits either payload: [size] is the size
    of one of the two types and at least the size of each, and, alignments
    being powers of two, an address aligned to [alignment] is aligned for
    [T] and for [E]. *)
Theorem Result_buffer_fits :
  (∀ sizeof_T sizeof_E : N,
     (sizeof_T ≤ Result_size sizeof_T sizeof_E)%N ∧
     (sizeof_E ≤ Result_size sizeof_T sizeof_E)%N ∧
     (Result_size sizeof_T sizeof_E = sizeof_T ∨
      Result_size sizeof_T sizeof_E = sizeof_E)) ∧
  (∀ a b addr : N,
     (Result_alignment (2 ^ a) (2 ^ b) | addr)%N →
     (2 ^ a | addr)%N ∧ (2 ^ b | addr)%N).
Proof.
  split.
  - intros sT sE. unfold Result_size.
    destruct (N.ltb_spec sE sT); (split; [lia | split; [lia |]]);
      [left | right]; reflexivity.
  - intros a b addr. unfold Result_alignment.
    destruct (N.ltb_spec (2 ^ b) (2 ^ a)) as [Hlt|Hle]; intros Hdiv.
    + assert (Hba : (b < a)%N)
        by (apply (N.pow_lt_mono_r_iff 2 b a); [lia | exact Hlt]).
      split; [exact Hdiv |].
      apply N.divide_trans with (2 ^ a)%N; [apply pow2_divide; lia | exact Hdiv].
    + assert (Hab : (a ≤ b)%N)
        by (apply (N.pow_le_mono_r_iff 2 a b); [lia | exact Hle]).
      split; [| exact Hdiv].
      apply N.divide_trans with (2 ^ b)%N; [apply pow2_divide; lia | exact Hdiv].
Qed.

(** The whole of [Result<int, Err> r(x)], step by step. *)
Lemma of_lvalue_run (x : Err) (w : world Str.heap) :
  let h := user w in
  let cx := Err_chars h x in
  let l1 := fresh (dom h) in
  let l2 := fresh (dom (<[l1 := cx]> h)) in
  l2 ≠ l1 ∧
  IntErr.of_lvalue x w =
  Ret ({| _buffer := Holds_E {| msg := {| Str.ptr := Some l2; Str.count := length cx |} |};
          state := STATE_ERROR |},
       {| user := delete l1 (<[l2 := cx]> (<[l1 := cx]> h));
          calls := ((calls w ++ [call_E_copy]) ++ [call_E_copy]) ++ [call_E_dtor] |}).
Proof.
  intros h cx l1 l2.
  assert (Hl1 : <[l1 := cx]> h !! l1 = Some cx) by apply lookup_insert_eq.
  assert (Hne : l2 ≠ l1).
  { intros Heq. pose proof (fresh_not_live (<[l1 := cx]> h)) as Hf. fold l2 in Hf.
    rewrite Heq, Hl1 in Hf. discriminate Hf. }
  split; [exact Hne |].
  unfold IntErr.of_lvalue, IntErr.of_error, Result_error, Err_copy, Err_dtor.
  unfold Str.clone, Str.str_free. unfold_M. simpl.
  fold h. unfold Err_chars in cx. fold cx l1.
  rewrite (chars_insert_same h l1 cx). fold l2.
  rewrite decide_True; [reflexivity |].
  rewrite lookup_insert_ne by exact Hne. rewrite Hl1. eauto.
Qed.

(** X12. Building a [Result<int, Err>] from an lvalue error and destroying
    it gives back the heap as it was: the two copies the construction makes
    (the parameter and the payload) are both released, each once. *)
Theorem Result_ctor_dtor_restores (x : Err) (w : world Str.heap) :
  (r <- IntErr.of_lvalue x ;; IntErr.dtor r) w =
  Ret (tt, {| user := user w;
              calls := calls w ++
                       [call_E_copy; call_E_copy; call_E_dtor; call_E_dtor] |}).
Proof.
  destruct (of_lvalue_run x w) as [Hne Hrun]. cbv zeta in Hne, Hrun.
  unfold M_bind at 1. rewrite Hrun.
  set (h := user w) in *. set (cx := Err_chars h x) in *.
  set (l1 := fresh (dom h)) in *. set (l2 := fresh (dom (<[l1 := cx]> h))) in *.
  unfold IntErr.dtor, Result_dtor, Err_dtor, Str.str_free. unfold_M. simpl.
  rewrite decide_True.
  - do 3 f_equal.
    + assert (Hl2 : <[l1 := cx]> h !! l2 = None) by apply fresh_not_live.
      assert (Hl1 : h !! l1 = None) by apply fresh_not_live.
      rewrite delete_delete. rewrite (delete_insert_id _ _ _ Hl2).
      exact (delete_insert_id _ _ _ Hl1).
    + rewrite <- !app_assoc. reflexivity.
  - rewrite lookup_delete_ne by congruence. rewrite lookup_insert_eq. eauto.
Qed.

(** X13. After the defaulted move of a [Result<T, Err>] that holds an
    error with a buffer, destroying the destination releases that buffer,
    and destroying the source as well is undefined: the source still says
    ERROR, so its destructor releases the same buffer again. *)
Theorem Result_moved_destroyed_twice {T} (T_dtor : T → M Str.heap unit)
    (e : Err) (l : nat) (w : world Str.heap) :
  Str.ptr (msg e) = Some l → is_Some (user w !! l) →
  let '(this, other') :=
    Result_move {| _buffer := (Holds_E e : storage T Err); state := STATE_ERROR |} in
  Result_dtor Err_dtor T_dtor this w =
    Ret (tt, {| user := delete l (user w); calls := calls w ++ [call_E_dtor] |}) ∧
  (Result_dtor Err_dtor T_dtor this ;; Result_dtor Err_dtor T_dtor other') w
    = Undefined.
Proof.
  intros Hp Hlive. simpl.
  assert (Hfirst : Result_dtor Err_dtor T_dtor
            {| _buffer := (Holds_E e : storage T Err); state := STATE_ERROR |} w =
          Ret (tt, {| user := delete l (user w); calls := calls w ++ [call_E_dtor] |})).
  { unfold Result_dtor, Err_dtor, Str.str_free. unfold_M. simpl.
    rewrite Hp. rewrite decide_True by exact Hlive. reflexivity. }
  split; [exact Hfirst |].
  unfold M_bind at 1. rewrite Hfirst.
  unfold Result_dtor, Err_dtor, Str.str_free. unfold_M. simpl.
  rewrite Hp. rewrite decide_False; [reflexivity |].
  rewrite lookup_delete_eq. intros [y Hy]. discriminate Hy.
Qed.

(** X14. The defaulted move assignment runs no destructor on what the
    destination held: after it both objects hold the payload of the source,
    and destroying the destination releases that payload's buffer while the
    buffer of the payload that was overwritten stays live, held by no
    one. *)
Theorem Result_move_assign_forgets {T} (T_dtor : T → M Str.heap unit)
    (e0 e : Err) (l0 l : nat) (w : world Str.heap) :
  Str.ptr (msg e0) = Some l0 → Str.ptr (msg e) = Some l → l0 ≠ l →
  is_Some (user w !! l0) → is_Some (user w !! l) →
  let '(this', other') :=
    Result_move_assign
      {| _buffer := (Holds_E e0 : storage T Err); state := STATE_ERROR |}
      {| _buffer := Holds_E e; state := STATE_ERROR |} in
  _buffer this' = Holds_E e ∧ _buffer other' = Holds_E e ∧
  ∃ w', Result_dtor Err_dtor T_dtor this' w = Ret (tt, w') ∧
        calls w' = calls w ++ [call_E_dtor] ∧
        user w' !! l = None ∧ is_Some (user w' !! l0).
Proof.
  intros Hp0 Hp Hne Hlive0 Hlive. simpl.
  split; [reflexivity |]. split; [reflexivity |].
  exists {| user := delete l (user w); calls := calls w ++ [call_E_dtor] |}.
  split; [| split; [reflexivity | split]].
  - unfold Result_dtor, Err_dtor, Str.str_free. unfold_M. simpl.
    rewrite Hp. rewrite decide_True by exact Hlive. reflexivity.
  - simpl. apply lookup_delete_eq.
  - simpl. rewrite lookup_delete_ne by congruence. exact Hlive0.
Qed.

(** X16. Over its lifetime a [Result] runs the special members of the
    live alternative only: built from value arguments and destroyed, it
    calls the constructor of [T] and then the destructor of [T] on the
    object that constructor built; built from an error and destroyed, it
    calls the copy constructor of [E] and then the destructor of [E] on the
    copy.  Nothing of the other type is called. *)
Theorem Result_lifetime_calls {W T E TArgs : Type}
    (E_copy : E → M W E) (T_ctor : TArgs → M W T)
    (E_dtor : E → M W unit) (T_dtor : T → M W unit) (w : world W) :
  (∀ args t u u',
     T_ctor args (user w) = Ret (t, u) → T_dtor t u = Ret (tt, u') →
     (r <- Result_value (E := E) T_ctor args ;; Result_dtor E_dtor T_dtor r) w
     = Ret (tt, {| user := u'; calls := calls w ++ [call_T_ctor; call_T_dtor] |})) ∧
  (∀ e p u u',
     E_copy e (user w) = Ret (p, u) → E_dtor p u = Ret (tt, u') →
     (r <- Result_error (T := T) E_copy e ;; Result_dtor E_dtor T_dtor r) w
     = Ret (tt, {| user := u'; calls := calls w ++ [call_E_copy; call_E_dtor] |})).
Proof.
  split.
  - intros args t u u' Hctor Hdtor. unfold M_bind at 1.
    rewrite Result_value_run, Hctor.
    unfold Result_dtor. unfold_M. simpl. rewrite Hdtor.
    rewrite <- app_assoc. reflexivity.
  - intros e p u u' Hcopy Hdtor. unfold M_bind at 1.
    rewrite Result_error_run, Hcopy.
    unfold Result_dtor. unfold_M. simpl. rewrite Hdtor.
    rewrite <- app_assoc. reflexivity.
Qed.

(** ** The further properties on sample objects *)

Lemma Err_ctor_message_witness :
  ∃ e h', Err_fmt plain "X"%string tt ∅ = Ret (e, h') ∧
          Err_chars h' e = list_ascii_of_string "X" ∧ Err_bool e = true.
Proof.
  destruct (Err_ctor_message plain "X"%string tt ∅)
    as (_ & e & h' & Hrun & Hchars & Hbool & _).
  exists e, h'. split; [exact Hrun |]. split; [exact Hchars |].
  apply Hbool. discriminate.
Defined.

Lemma Err_compare_bool_witness :
  Err_eq Sample.err_a true = true ∧ Err_ne Sample.err_a false = true.
Proof.
  destruct (Err_compare_bool Sample.err_a true) as (Heq & _).
  destruct (Err_compare_bool Sample.err_a false) as (_ & Hne & _).
  split; [apply Heq; reflexivity | apply Hne; discriminate].
Defined.

Lemma Err_copy_independent_witness :
  ∃ m' c, Err_copy_at 2 0 Sample.mem2 = Ret (tt, m') ∧
          objs m' !! 2 = Some c ∧
          message m' 2 = Some (list_ascii_of_string "X") ∧
          (∀ k, k ≠ 2 → message m' k = message Sample.mem2 k) ∧
          Str.ptr (msg c) ≠ Str.ptr (msg Sample.err_a) ∧
          Mem_wf m'.
Proof.
  exact (Err_copy_independent Sample.mem2 2 0 Sample.err_a
           Sample_mem2_wf eq_refl eq_refl).
Defined.

Lemma Err_copy_then_destroy_witness :
  (Err_copy_at 2 0 ;; Err_dtor_at 2) Sample.mem2 = Ret (tt, Sample.mem2).
Proof.
  exact (Err_copy_then_destroy Sample.mem2 2 0 Sample.err_a eq_refl eq_refl).
Defined.

Lemma Err_assign_copy_replaces_witness :
  ∃ m', Err_assign_copy 0 1 Sample.mem2 = Ret (tt, m') ∧
        message m' 0 = Some (list_ascii_of_string "YZ") ∧
        truthy m' 0 = Some true ∧
        (∀ k, k ≠ 0 → message m' k = message Sample.mem2 k) ∧
        Mem_wf m'.
Proof.
  apply (Err_assign_copy_replaces Sample.mem2 0 1 Sample.err_a Sample.err_b
           Sample_mem2_wf eq_refl eq_refl).
  lia.
Defined.

Lemma Err_self_move_assign_empties_witness :
  ∃ m', Err_assign_move 0 0 Sample.mem2 = Ret (tt, m') ∧
        message m' 0 = Some [] ∧ truthy m' 0 = Some false ∧
        bufs m' !! 0 = None ∧
        message m' 1 = Some (list_ascii_of_string "YZ").
Proof.
  destruct (Err_self_move_assign_empties Sample.mem2 0 Sample.err_a
              Sample_mem2_wf eq_refl)
    as (m' & Hrun & Hmsg & Hbool & Hfreed & Hframe & _).
  exists m'. split; [exact Hrun |]. split; [exact Hmsg |]. split; [exact Hbool |].
  split; [apply Hfreed; reflexivity |].
  rewrite (Hframe 1); [reflexivity | lia].
Defined.

Lemma Err_dtor_releases_witness :
  ∃ m', Err_dtor_at 0 Sample.mem2 = Ret (tt, m') ∧
        objs m' !! 0 = None ∧ bufs m' !! 0 = None ∧
        message m' 1 = Some (list_ascii_of_string "YZ").
Proof.
  destruct (Err_dtor_releases Sample.mem2 0 Sample.err_a Sample_mem2_wf eq_refl)
    as (m' & Hrun & Hgone & Hfreed & Hframe & _).
  exists m'. split; [exact Hrun |]. split; [exact Hgone |].
  split; [apply Hfreed; reflexivity |].
  rewrite (Hframe 1); [reflexivity | lia].
Defined.

Lemma Sample_block_well_addressed : well_addressed plain Sample.block Mem_empty.
Proof. vm_compute. repeat split; eauto. Qed.

Lemma Err_program_safe_witness :
  ∃ m', run_ops plain Sample.block Mem_empty = Ret (tt, m') ∧
        Mem_wf m' ∧ Mem_tight m' ∧ bufs m' = ∅.
Proof.
  destruct (Err_program_safe plain Sample.block Sample_block_well_addressed)
    as (m' & Hrun & Hwf & Htight & Hleak).
  exists m'. split; [exact Hrun |]. split; [exact Hwf |]. split; [exact Htight |].
  apply Hleak. vm_compute in Hrun. inversion Hrun. reflexivity.
Defined.

Lemma Err_move_then_destroy_both_witness :
  (Err_move_at 2 1 ;; Err_dtor_at 1 ;; Err_dtor_at 2) Sample.mem2
  = Err_dtor_at 1 Sample.mem2.
Proof.
  apply (Err_move_then_destroy_both Sample.mem2 2 1 Sample.err_b eq_refl eq_refl).
  exists (list_ascii_of_string "YZ"). split; [reflexivity | simpl; lia].
Defined.

Lemma Result_state_queries_witness :
  value (mkResult (Raw : storage Z Err) STATE_EMPTY) = AssertFail ∧
  error (mkResult (Raw : storage Z Err) STATE_EMPTY) = AssertFail.
Proof.
  destruct (Result_state_queries (mkResult (Raw : storage Z Err) STATE_EMPTY))
    as (_ & _ & Hempty & _).
  destruct (Hempty eq_refl) as (Hv & He & _). split; [exact Hv | exact He].
Defined.

Lemma Result_buffer_fits_witness :
  (2 ^ 2 | 16)%N ∧ (2 ^ 3 | 16)%N.
Proof.
  apply (proj2 Result_buffer_fits 2 3 16)%N.
  exists 2%N. reflexivity.
Defined.

Lemma Result_moved_destroyed_twice_witness :
  IntErr.dtor Sample.failed Sample.world1 =
    Ret (tt, {| user := delete 0 Sample.not_found_heap; calls := [call_E_dtor] |}) ∧
  (IntErr.dtor Sample.failed ;; IntErr.dtor Sample.failed) Sample.world1 = Undefined.
Proof.
  apply (Result_moved_destroyed_twice IntErr.int_dtor Sample.not_found_err 0
           Sample.world1 eq_refl).
  exists (list_ascii_of_string "file a.txt not found"). reflexivity.
Defined.

Lemma Result_move_assign_forgets_witness :
  ∃ w', IntErr.dtor (mkResult (Holds_E Sample.err_b) STATE_ERROR)
          {| user := bufs Sample.mem2; calls := [] |} = Ret (tt, w') ∧
        calls w' = [call_E_dtor] ∧
        user w' !! 1 = None ∧ is_Some (user w' !! 0).
Proof.
  destruct (Result_move_assign_forgets IntErr.int_dtor Sample.err_a Sample.err_b
              0 1 {| user := bufs Sample.mem2; calls := [] |} eq_refl eq_refl)
    as (_ & _ & Hdtor); [lia | | | exact Hdtor].
  - exists (list_ascii_of_string "X"). reflexivity.
  - exists (list_ascii_of_string "YZ"). reflexivity.
Defined.

Lemma Result_lifetime_calls_witness :
  (r <- IntErr.of_value 42%Z ;; IntErr.dtor r) IntErr.start
  = Ret (tt, {| user := ∅; calls := [call_T_ctor; call_T_dtor] |}).
Proof.
  exact (proj1 (Result_lifetime_calls Err_copy IntErr.int_ctor Err_dtor
                  IntErr.int_dtor IntErr.start) 42%Z 42%Z ∅ ∅ eq_refl eq_refl).
Defined.
